(** * HemonChat front end: the streaming response assembler and the
      model-readiness poller of [src/app/page.tsx]

    A shallow embedding of the two pieces of logic of the page component
    [Home]: [handleSubmit] (the reader that reassembles a chat answer from
    a chunked event stream) and [checkModelStatus] (the poller that tracks
    whether the remote model is ready).

    JavaScript strings are sequences of UTF-16 code units, bytes are
    [Byte.byte], React state is threaded explicitly, and the browser
    operations the component calls ([TextDecoder.decode], [String.split],
    [String.trim], [JSON.parse], [setTimeout]/[clearTimeout]) are modelled
    after their standards. *)

From Stdlib Require Import NArith ZArith Lia Ascii String List Bool.
From Stdlib.Strings Require Import Byte.
From stdpp Require Import base option list gmap fin_maps.
Import ListNotations.

Set Warnings "-register-all".

Local Open Scope N_scope.
Local Open Scope list_scope.

(** ** JavaScript strings *)

Module JS.

(** A JavaScript string: its UTF-16 code units. *)
Abbreviation code_unit := N (only parsing).
Abbreviation js_string := (list N) (only parsing).

(** The code units of an ASCII literal of the source. *)
Definition lit (s : String.string) : js_string :=
  map N_of_ascii (list_ascii_of_string s).

Definition LF : code_unit := 10.

Fixpoint js_string_eqb (a b : js_string) : bool :=
  match a, b with
  | [], [] => true
  | x :: a', y :: b' => (x =? y) && js_string_eqb a' b'
  | _, _ => false
  end.

(** [s.startsWith(p)] *)
Fixpoint startsWith (s p : js_string) {struct p} : bool :=
  match p, s with
  | [], _ => true
  | c :: p', d :: s' => (c =? d) && startsWith s' p'
  | _ :: _, [] => false
  end.

(** [s.slice(n)] for a non-negative [n]. *)
Definition slice_from (n : nat) (s : js_string) : js_string := drop n s.

(** [s.split('\n\n')]: the separator is searched from left to right and
    the pieces between its occurrences are returned; the result always
    has at least one element. *)
Fixpoint split_blank_line (s : js_string) : list js_string :=
  match s with
  | [] => [[]]
  | c :: rest =>
      match rest with
      | d :: rest' =>
          if (c =? LF) && (d =? LF) then [] :: split_blank_line rest'
          else match split_blank_line rest with
               | piece :: pieces => (c :: piece) :: pieces
               | [] => [[c]]
               end
      | [] => [[c]]
      end
  end.

(** [arr.pop()]: the array without its last element, and that element
    ([None] stands for [undefined], on the empty array). *)
Definition pop {A} (arr : list A) : list A * option A :=
  (removelast arr, last arr).

(** The white space and line terminator code units that [trim] strips
    (ECMAScript WhiteSpace and LineTerminator). *)
Definition is_white_space (c : code_unit) : bool :=
  (c =? 0x09) || (c =? 0x0A) || (c =? 0x0B) || (c =? 0x0C) || (c =? 0x0D)
  || (c =? 0x20) || (c =? 0xA0) || (c =? 0x1680)
  || ((0x2000 <=? c) && (c <=? 0x200A))
  || (c =? 0x2028) || (c =? 0x2029) || (c =? 0x202F) || (c =? 0x205F)
  || (c =? 0x3000) || (c =? 0xFEFF).

Fixpoint trim_start (s : js_string) : js_string :=
  match s with
  | c :: s' => if is_white_space c then trim_start s' else s
  | [] => []
  end.

(** [s.trim()] *)
Definition trim (s : js_string) : js_string :=
  rev (trim_start (rev (trim_start s))).

(** Truthiness of a string: only the empty string is falsy. *)
Definition string_truthy (s : js_string) : bool :=
  match s with [] => false | _ => true end.

End JS.

Export JS.

(** ** [new TextDecoder().decode(bytes)]

    The UTF-8 decoder of the WHATWG Encoding Standard, run on one
    complete input: the decoder object is created afresh for every call
    and is not in streaming mode, so a sequence left incomplete at the
    end of the input is replaced by U+FFFD and no state survives the
    call. *)

Module Encoding.

Definition REPLACEMENT : N := 0xFFFD.
Definition BOM : N := 0xFEFF.

Record utf8_state := {
  code_point : N;
  bytes_seen : N;
  bytes_needed : N;
  lower_boundary : N;
  upper_boundary : N
}.

Definition utf8_init : utf8_state :=
  {| code_point := 0; bytes_seen := 0; bytes_needed := 0;
     lower_boundary := 0x80; upper_boundary := 0xBF |}.

(** The handler on a byte when no byte is needed: the code points emitted
    and the next state. *)
Definition utf8_lead (b : N) : list N * utf8_state :=
  if b <=? 0x7F then ([b], utf8_init)
  else if (0xC2 <=? b) && (b <=? 0xDF) then
    ([], {| code_point := N.land b 0x1F; bytes_seen := 0; bytes_needed := 1;
            lower_boundary := 0x80; upper_boundary := 0xBF |})
  else if (0xE0 <=? b) && (b <=? 0xEF) then
    ([], {| code_point := N.land b 0xF; bytes_seen := 0; bytes_needed := 2;
            lower_boundary := if b =? 0xE0 then 0xA0 else 0x80;
            upper_boundary := if b =? 0xED then 0x9F else 0xBF |})
  else if (0xF0 <=? b) && (b <=? 0xF4) then
    ([], {| code_point := N.land b 0x7; bytes_seen := 0; bytes_needed := 3;
            lower_boundary := if b =? 0xF0 then 0x90 else 0x80;
            upper_boundary := if b =? 0xF4 then 0x8F else 0xBF |})
  else ([REPLACEMENT], utf8_init).

(** The decoder run over the rest of the input, the end of the input
    included. A byte outside the expected range ends the pending sequence
    with U+FFFD and is then handled again as a first byte. *)
Fixpoint utf8_run (st : utf8_state) (bs : list N) : list N :=
  match bs with
  | [] => if bytes_needed st =? 0 then [] else [REPLACEMENT]
  | b :: rest =>
      if bytes_needed st =? 0 then
        let '(out, st') := utf8_lead b in out ++ utf8_run st' rest
      else if (b <? lower_boundary st) || (upper_boundary st <? b) then
        let '(out, st') := utf8_lead b in
        REPLACEMENT :: out ++ utf8_run st' rest
      else
        let cp := N.lor (N.shiftl (code_point st) 6) (N.land b 0x3F) in
        if bytes_seen st + 1 =? bytes_needed st then cp :: utf8_run utf8_init rest
        else utf8_run {| code_point := cp; bytes_seen := bytes_seen st + 1;
                         bytes_needed := bytes_needed st;
                         lower_boundary := 0x80; upper_boundary := 0xBF |} rest
  end.

(** [ignoreBOM] is false by default: a leading U+FEFF is dropped. *)
Definition strip_BOM (cps : list N) : list N :=
  match cps with
  | c :: rest => if c =? BOM then rest else cps
  | [] => []
  end.

(** The code units of a scalar value. *)
Definition utf16_units (cp : N) : js_string :=
  if cp <? 0x10000 then [cp]
  else let c := cp - 0x10000 in
       [0xD800 + N.shiftr c 10; 0xDC00 + N.land c 0x3FF].

Definition utf16_encode (cps : list N) : js_string :=
  concat (map utf16_units cps).

(** A byte that is a character of its own. *)
Definition is_ascii (b : byte) : bool := Byte.to_N b <=? 0x7F.

Definition TextDecoder_decode (value : list byte) : js_string :=
  utf16_encode (strip_BOM (utf8_run utf8_init (map Byte.to_N value))).

End Encoding.

Export Encoding.

(** ** JSON values and [JSON.parse] *)

Module Json.

(** A value produced by [JSON.parse]. A number is kept as the numeral it
    was written with; an object keeps its members in source order, where
    a later member of the same name overrides an earlier one. *)
Inductive json :=
  | JNull
  | JBool (b : bool)
  | JNumber (numeral : js_string)
  | JString (s : js_string)
  | JArray (elements : list json)
  | JObject (members : list (js_string * json)).

(** The two operations on numbers that the page reaches through
    coercions. They are IEEE double operations of the engine and are
    taken as given. *)
Class NumberOps := {
  (** the string of the number written as the numeral *)
  Number_toString : js_string -> js_string;
  (** whether that number is neither zero nor NaN *)
  Number_truthy : js_string -> bool
}.

Definition is_json_ws (c : code_unit) : bool :=
  (c =? 0x20) || (c =? 0x09) || (c =? 0x0A) || (c =? 0x0D).

Fixpoint skip_ws (s : js_string) : js_string :=
  match s with
  | c :: s' => if is_json_ws c then skip_ws s' else s
  | [] => []
  end.

Definition is_digit (c : code_unit) : bool := (48 <=? c) && (c <=? 57).

Definition hex_value (c : code_unit) : option N :=
  if is_digit c then Some (c - 48)
  else if (65 <=? c) && (c <=? 70) then Some (c - 55)
  else if (97 <=? c) && (c <=? 102) then Some (c - 87)
  else None.

(** The character a one-letter escape stands for. *)
Definition simple_escape (c : code_unit) : option code_unit :=
  if c =? 34 then Some 34          (* quote *)
  else if c =? 92 then Some 92     (* backslash *)
  else if c =? 47 then Some 47     (* \/ *)
  else if c =? 98 then Some 8      (* \b *)
  else if c =? 102 then Some 12    (* \f *)
  else if c =? 110 then Some 10    (* \n *)
  else if c =? 114 then Some 13    (* \r *)
  else if c =? 116 then Some 9     (* \t *)
  else None.

(** The characters of a string literal after its opening quote, up to
    and including the closing quote: the string denoted and the rest of
    the input. *)
Fixpoint parse_string_chars (s : js_string) : option (js_string * js_string) :=
  match s with
  | [] => None
  | c :: rest =>
      if c =? 34 then Some ([], rest)
      else if c <? 0x20 then None
      else if c =? 92 then
        match rest with
        | e :: rest1 =>
            if e =? 117 then
              match rest1 with
              | h1 :: h2 :: h3 :: h4 :: rest2 =>
                  match hex_value h1, hex_value h2, hex_value h3, hex_value h4 with
                  | Some a, Some b, Some c', Some d =>
                      match parse_string_chars rest2 with
                      | Some (str, r) => Some (((a * 16 + b) * 16 + c') * 16 + d :: str, r)
                      | None => None
                      end
                  | _, _, _, _ => None
                  end
              | _ => None
              end
            else
              match simple_escape e with
              | Some u =>
                  match parse_string_chars rest1 with
                  | Some (str, r) => Some (u :: str, r)
                  | None => None
                  end
              | None => None
              end
        | [] => None
        end
      else
        match parse_string_chars rest with
        | Some (str, r) => Some (c :: str, r)
        | None => None
        end
  end.

Fixpoint span_digits (s : js_string) : js_string * js_string :=
  match s with
  | c :: s' =>
      if is_digit c then let '(ds, r) := span_digits s' in (c :: ds, r)
      else ([], s)
  | [] => ([], [])
  end.

(** A JSON numeral: an optional minus sign; an integer part, which is a
    single zero or a non-zero digit followed by digits; an optional
    fraction, a point and at least one digit; an optional exponent, [e] or
    [E], an optional sign and at least one digit. Each part returns the
    text it read and the rest of the input. *)
Definition parse_sign (s : js_string) : js_string * js_string :=
  match s with
  | c :: s' => if c =? 45 then ([c], s') else ([], s)
  | [] => ([], s)
  end.

Definition parse_int (s : js_string) : option (js_string * js_string) :=
  match s with
  | d :: s' =>
      if d =? 48 then Some ([d], s')
      else if is_digit d then let '(ds, r) := span_digits s' in Some (d :: ds, r)
      else None
  | [] => None
  end.

Definition parse_frac (s : js_string) : option (js_string * js_string) :=
  match s with
  | c :: s' =>
      if c =? 46 then
        let '(ds, r) := span_digits s' in
        match ds with [] => None | _ :: _ => Some (c :: ds, r) end
      else Some ([], s)
  | [] => Some ([], s)
  end.

Definition parse_exp (s : js_string) : option (js_string * js_string) :=
  match s with
  | c :: s' =>
      if (c =? 101) || (c =? 69) then
        let '(sg, s'') :=
          match s' with
          | g :: t => if (g =? 43) || (g =? 45) then ([g], t) else ([], s')
          | [] => ([], s')
          end in
        let '(ds, r) := span_digits s'' in
        match ds with [] => None | _ :: _ => Some (c :: sg ++ ds, r) end
      else Some ([], s)
  | [] => Some ([], s)
  end.

Definition parse_number (s : js_string) : option (js_string * js_string) :=
  let '(sign, s1) := parse_sign s in
  '(int, s2) ← parse_int s1;
  '(frac, s3) ← parse_frac s2;
  '(exp, s4) ← parse_exp s3;
  Some (sign ++ int ++ frac ++ exp, s4).

(** A literal name [true], [false] or [null]. *)
Definition parse_literal (name : js_string) (v : json) (s : js_string)
  : option (json * js_string) :=
  if startsWith s name then Some (v, drop (length name) s) else None.

(** A value, preceded by optional white space. [fuel] bounds the nesting
    and the number of elements; [JSON_parse] below supplies enough of it. *)
Fixpoint parse_value (fuel : nat) (s : js_string) : option (json * js_string) :=
  match fuel with
  | O => None
  | S fuel =>
      match skip_ws s with
      | [] => None
      | c :: rest =>
          if c =? 123 then                               (* { *)
            match skip_ws rest with
            | d :: rest' =>
                if d =? 125 then Some (JObject [], rest')
                else '(ms, r) ← parse_members fuel rest; Some (JObject ms, r)
            | [] => None
            end
          else if c =? 91 then                           (* [ *)
            match skip_ws rest with
            | d :: rest' =>
                if d =? 93 then Some (JArray [], rest')
                else '(vs, r) ← parse_elements fuel rest; Some (JArray vs, r)
            | [] => None
            end
          else if c =? 34 then                           (* string *)
            '(str, r) ← parse_string_chars rest; Some (JString str, r)
          else if c =? 116 then parse_literal (lit "true") (JBool true) (c :: rest)
          else if c =? 102 then parse_literal (lit "false") (JBool false) (c :: rest)
          else if c =? 110 then parse_literal (lit "null") JNull (c :: rest)
          else '(num, r) ← parse_number (c :: rest); Some (JNumber num, r)
      end
  end
(** The elements of an array after [[] or [,], up to and including []]. *)
with parse_elements (fuel : nat) (s : js_string) : option (list json * js_string) :=
  match fuel with
  | O => None
  | S fuel =>
      '(v, rest) ← parse_value fuel s;
      match skip_ws rest with
      | c :: rest' =>
          if c =? 44 then '(vs, r) ← parse_elements fuel rest'; Some (v :: vs, r)
          else if c =? 93 then Some ([v], rest')
          else None
      | [] => None
      end
  end
(** The members of an object after [{] or [,], up to and including [}]. *)
with parse_members (fuel : nat) (s : js_string)
  : option (list (js_string * json) * js_string) :=
  match fuel with
  | O => None
  | S fuel =>
      match skip_ws s with
      | q :: rest =>
          if q =? 34 then
            '(key, rest1) ← parse_string_chars rest;
            match skip_ws rest1 with
            | c :: rest2 =>
                if c =? 58 then
                  '(v, rest3) ← parse_value fuel rest2;
                  match skip_ws rest3 with
                  | e :: rest4 =>
                      if e =? 44 then
                        '(ms, r) ← parse_members fuel rest4; Some ((key, v) :: ms, r)
                      else if e =? 125 then Some ([(key, v)], rest4)
                      else None
                  | [] => None
                  end
                else None
            | [] => None
            end
          else None
      | [] => None
      end
  end.

(** [JSON.parse(text)]: [None] when it throws a SyntaxError. Every
    recursive call above follows the consumption of a character, so
    twice the length of the text is fuel enough. *)
Definition JSON_parse (text : js_string) : option json :=
  '(v, rest) ← parse_value (2 * length text + 2) text;
  match skip_ws rest with
  | [] => Some v
  | _ :: _ => None
  end.

(** The own member [key] of an object: the last one of that name. *)
Fixpoint get_own (key : js_string) (members : list (js_string * json)) : option json :=
  match members with
  | [] => None
  | (k, v) :: rest =>
      match get_own key rest with
      | Some v' => Some v'
      | None => if js_string_eqb k key then Some v else None
      end
  end.

(** The result of a property read [v.key]. *)
Inductive property :=
  | Undefined
  | Value (v : json).

(** [v.key] for a name that no built-in prototype or wrapper defines, as
    [content], [status] and [detail] are: [None] is the TypeError of a
    read on [null]; only an object can have the property. *)
Definition get_property (v : json) (key : js_string) : option property :=
  match v with
  | JNull => None
  | JObject members =>
      Some (match get_own key members with Some x => Value x | None => Undefined end)
  | _ => Some Undefined
  end.

Section Coercions.
Context `{NumberOps}.

(** [ToString(v)], as string concatenation applies it to a parsed
    value. An array is joined with commas, [null] elements giving the
    empty string; an object gives ["[object Object]"], unless it has an
    own member [toString], which hides the inherited method with a value
    that cannot be called: the conversion then throws a TypeError
    ([None]). *)
Fixpoint ToString (v : json) : option js_string :=
  match v with
  | JNull => Some (lit "null")
  | JBool true => Some (lit "true")
  | JBool false => Some (lit "false")
  | JNumber numeral => Some (Number_toString numeral)
  | JString s => Some s
  | JArray elements =>
      (fix join (vs : list json) : option js_string :=
         match vs with
         | [] => Some []
         | x :: rest =>
             e ← match x with JNull => Some [] | _ => ToString x end;
             match rest with
             | [] => Some e
             | _ :: _ => r ← join rest; Some (e ++ lit "," ++ r)
             end
         end) elements
  | JObject members =>
      match get_own (lit "toString") members with
      | Some _ => None
      | None => Some (lit "[object Object]")
      end
  end.

(** [ToBoolean(v)] *)
Definition ToBoolean (v : json) : bool :=
  match v with
  | JNull => false
  | JBool b => b
  | JNumber numeral => Number_truthy numeral
  | JString s => string_truthy s
  | JArray _ | JObject _ => true
  end.

(** Truthiness of the result of a property read. *)
Definition property_truthy (p : property) : bool :=
  match p with
  | Undefined => false
  | Value v => ToBoolean v
  end.

End Coercions.

End Json.

Export Json.

(** ** The chat form: [handleSubmit] *)

Module Chat.

Inductive Role := user | assistant.

Record Message := { role : Role; content : js_string }.

(** What [handleSubmit] does besides updating the state of the page. *)
Inductive Effect :=
  | PreventDefault                        (* e.preventDefault() *)
  | Fetch_chat (body : list Message)      (* POST /chat with these messages *)
  | Log_received (text : js_string)       (* console.log('Received text:', text) *)
  | Log_parsed (data : json)              (* console.log('Parsed data:', data) *)
  | Error_parsing_chunk                   (* console.error('Error parsing chunk:', e) *)
  | Error_logged.                         (* console.error('Error:', error) *)

(** The state hooks of [Home] that the form uses, and the effects so far. *)
Record Page := {
  messages : list Message;
  input : js_string;
  isLoading : bool;
  effects : list Effect
}.

(** How the stream of the answer ends: [reader.read()] reports [done], or
    it rejects. *)
Inductive StreamEnd := Done | ReadError.

(** What the server and the network do with the request. *)
Inductive ChatResponse :=
  | FetchRejected                         (* fetch rejects: network failure *)
  | NotOk (errorData : option json)       (* not 2xx; the body as [response.json()]
                                             gives it, [None] when that rejects *)
  | NoBody                                (* 2xx, but [response.body] is null *)
  | Stream (chunks : list (list byte)) (e : StreamEnd).

Definition APOLOGY : js_string := lit "Sorry, an error occurred. Please try again.".
Definition DATA_PREFIX : js_string := lit "data: ".

Definition emit (e : Effect) (p : Page) : Page :=
  {| messages := messages p; input := input p; isLoading := isLoading p;
     effects := effects p ++ [e] |}.

Definition setInput (v : js_string) (p : Page) : Page :=
  {| messages := messages p; input := v; isLoading := isLoading p;
     effects := effects p |}.

Definition setIsLoading (v : bool) (p : Page) : Page :=
  {| messages := messages p; input := input p; isLoading := v;
     effects := effects p |}.

(** [setMessages(updater)]: React applies the updaters in the order of the
    calls, each to the list the previous one returned. An updater that
    throws makes the render fail, which ends the page ([None]). *)
Definition setMessages (updater : list Message -> option (list Message)) (p : Page)
  : option Page :=
  msgs ← updater (messages p);
  Some {| messages := msgs; input := input p; isLoading := isLoading p;
          effects := effects p |}.

(** The records of a text that are complete, those followed by a blank
    line, and the tail after the last blank line, which the loop keeps as
    its buffer. *)
Definition complete_records (text : js_string) : list js_string :=
  fst (pop (split_blank_line text)).

Definition pending_tail (text : js_string) : js_string :=
  default [] (snd (pop (split_blank_line text))).

(** The text of a stream as the loop decodes it, chunk by chunk. *)
Definition decoded_text (chunks : list (list byte)) : js_string :=
  concat (map TextDecoder_decode chunks).

Definition is_Log_received (e : Effect) : bool :=
  match e with Log_received _ => true | _ => false end.

(** The page without the console lines that echo the text received. *)
Definition hush (p : Page) : Page :=
  {| messages := messages p; input := input p; isLoading := isLoading p;
     effects := List.filter (fun e => negb (is_Log_received e)) (effects p) |}.

(** The delta of a well-formed data record: the record has the prefix,
    its payload parses, and the [content] of the value is a string. *)
Definition record_delta (message : js_string) : option js_string :=
  if startsWith message DATA_PREFIX then
    data ← JSON_parse (slice_from 6 message);
    match get_property data (lit "content") with
    | Some (Value (JString delta)) => Some delta
    | _ => None
    end
  else None.

(** What the loop may write to the console for a record, and what it
    may write at all. *)
Definition record_effect (e : Effect) : bool :=
  match e with
  | Log_parsed _ | Error_parsing_chunk => true
  | _ => false
  end.

Definition loop_effect (e : Effect) : bool :=
  match e with
  | Log_parsed _ | Error_parsing_chunk | Log_received _ => true
  | _ => false
  end.

Definition is_Fetch_chat (e : Effect) : bool :=
  match e with Fetch_chat _ => true | _ => false end.

(** The requests that were sent. *)
Definition requests_sent (p : Page) : list Effect :=
  List.filter is_Fetch_chat (effects p).

(** The message of the user that a submission adds. *)
Definition userMessage_of (p : Page) : Message :=
  {| role := user; content := input p |}.

(** The page when [handleSubmit] reaches [await fetch]: both messages
    pushed, the input cleared, the loading flag set, the request sent. *)
Definition submitted (p : Page) : Page :=
  {| messages := messages p ++ [userMessage_of p; {| role := assistant; content := [] |}];
     input := [];
     isLoading := true;
     effects := effects p ++ [PreventDefault; Fetch_chat (messages p ++ [userMessage_of p])] |}.

(** The responses that make [handleSubmit] throw. *)
Definition fails (response : ChatResponse) : bool :=
  match response with
  | FetchRejected | NotOk _ | NoBody | Stream _ ReadError => true
  | Stream _ Done => false
  end.

(** The last message with a delta appended to its content. *)
Definition with_delta (open : Message) (delta : js_string) : Message :=
  {| role := role open; content := content open ++ delta |}.

Section WithNumbers.
Context `{NumberOps}.

(** The updater of a content delta (lines 165-176): all but the last
    message, then the last one, or a fresh assistant message when there is
    none, with [data.content] appended to its content by [+]. *)
Definition append_content (data_content : json) (prev : list Message)
  : option (list Message) :=
  let newMessages := removelast prev in
  let lastMessage := default {| role := assistant; content := [] |} (last prev) in
  delta ← ToString data_content;
  Some (newMessages ++ [ {| role := role lastMessage;
                            content := content lastMessage ++ delta |} ]).

(** The updater of the [catch] block (lines 186-193). Reading [role] of
    the missing last element of an empty list throws. *)
Definition show_apology (prev : list Message) : option (list Message) :=
  match last prev with
  | None => None
  | Some lastMessage =>
      match role lastMessage with
      | assistant =>
          Some (removelast prev ++ [ {| role := assistant; content := APOLOGY |} ])
      | user => Some prev
      end
  end.

(** The body of the [for] loop (lines 158-181) on one complete record. *)
Definition process_message (message : js_string) (p : Page) : option Page :=
  if startsWith message DATA_PREFIX then
    match JSON_parse (slice_from 6 message) with
    | None => Some (emit Error_parsing_chunk p)
    | Some data =>
        let p := emit (Log_parsed data) p in
        match get_property data (lit "content") with
        | None => Some (emit Error_parsing_chunk p)
        | Some Undefined => Some p
        | Some (Value data_content) => setMessages (append_content data_content) p
        end
    end
  else Some p.

(** [for (const message of messages) ...] *)
Fixpoint process_messages (msgs : list js_string) (p : Page) : option Page :=
  match msgs with
  | [] => Some p
  | message :: rest => p' ← process_message message p; process_messages rest p'
  end.

(** One turn of the [while] loop on a chunk that was read (lines
    149-182): the new buffer and page. *)
Definition read_chunk (value : list byte) (buffer : js_string) (p : Page)
  : option (js_string * Page) :=
  let text := TextDecoder_decode value in
  let buffer := buffer ++ text in
  let p := emit (Log_received text) p in
  let '(msgs, popped) := pop (split_blank_line buffer) in
  let buffer := match popped with
                | Some tail => if string_truthy tail then tail else []
                | None => []
                end in
  p' ← process_messages msgs p;
  Some (buffer, p').

(** The [while] loop over the chunks that [reader.read()] delivers. *)
Fixpoint read_loop (chunks : list (list byte)) (buffer : js_string) (p : Page)
  : option (js_string * Page) :=
  match chunks with
  | [] => Some (buffer, p)
  | value :: rest =>
      '(buffer', p') ← read_chunk value buffer p;
      read_loop rest buffer' p'
  end.

(** The [catch] block. *)
Definition on_error (p : Page) : option Page :=
  setMessages show_apology (emit Error_logged p).

(** [handleSubmit], run to its end against the given response. The
    [messages] sent in the request are those of the render that created
    the handler, the list the page shows when the form is submitted. *)
Definition handleSubmit (response : ChatResponse) (p : Page) : option Page :=
  let p := emit PreventDefault p in
  if negb (string_truthy (trim (input p))) then Some p
  else
    let shown := messages p in
    let userMessage := {| role := user; content := input p |} in
    p ← setMessages (fun prev => Some (prev ++ [userMessage])) p;
    let p := setInput [] p in
    let p := setIsLoading true p in
    let assistantMessage := {| role := assistant; content := [] |} in
    p ← setMessages (fun prev => Some (prev ++ [assistantMessage])) p;
    let p := emit (Fetch_chat (shown ++ [userMessage])) p in
    p ← match response with
        | FetchRejected | NotOk _ | NoBody => on_error p
        | Stream chunks e =>
            '(_, p) ← read_loop chunks [] p;
            match e with
            | Done => Some p
            | ReadError => on_error p
            end
        end;
    Some (setIsLoading false p).

End WithNumbers.

End Chat.

(** ** The readiness poller: [checkModelStatus] *)

Module Poller.

Local Open Scope Z_scope.

Inductive ModelStatus := loading | ready | error.

(** The hooks of [Home] that the poller uses, the timers of the browser,
    and the requests sent. A timer handle is a positive integer, so a
    handle stored in the ref is truthy. *)
Record Poller := {
  modelStatus : ModelStatus;              (* useState('loading') *)
  lastCheckTime : Z;                      (* useState(0) *)
  checkTimeoutRef : option positive;      (* useRef(undefined) *)
  timers : gmap positive Z;               (* pending timers of the browser: when each is due *)
  next_timer : positive;                  (* the handle [setTimeout] returns next *)
  in_flight : nat;                        (* status requests not yet answered *)
  requests : list Z                       (* when each status request was sent *)
}.

(** The state of the first render. *)
Definition initial : Poller :=
  {| modelStatus := loading; lastCheckTime := 0; checkTimeoutRef := None;
     timers := ∅; next_timer := 1%positive; in_flight := 0%nat; requests := [] |}.

(** The answer to a status request. *)
Inductive StatusResponse :=
  | FetchRejected                              (* network or CORS failure *)
  | Responded (ok : bool) (body : option json). (* [response.ok], and what
                                                  [response.json()] gives,
                                                  [None] when it rejects *)

Definition RETRY_DELAY : Z := 60000.

Definition setModelStatus (s : ModelStatus) (p : Poller) : Poller :=
  {| modelStatus := s; lastCheckTime := lastCheckTime p;
     checkTimeoutRef := checkTimeoutRef p; timers := timers p;
     next_timer := next_timer p; in_flight := in_flight p; requests := requests p |}.

(** [if (checkTimeoutRef.current) clearTimeout(checkTimeoutRef.current)] *)
Definition clear_pending (p : Poller) : Poller :=
  match checkTimeoutRef p with
  | Some id =>
      {| modelStatus := modelStatus p; lastCheckTime := lastCheckTime p;
         checkTimeoutRef := checkTimeoutRef p; timers := delete id (timers p);
         next_timer := next_timer p; in_flight := in_flight p; requests := requests p |}
  | None => p
  end.

(** [checkTimeoutRef.current = setTimeout(checkModelStatus, 60000)] at time [now]. *)
Definition set_retry (now : Z) (p : Poller) : Poller :=
  let id := next_timer p in
  {| modelStatus := modelStatus p; lastCheckTime := lastCheckTime p;
     checkTimeoutRef := Some id; timers := <[id := now + RETRY_DELAY]> (timers p);
     next_timer := (id + 1)%positive; in_flight := in_flight p; requests := requests p |}.

Definition schedule_retry (now : Z) (p : Poller) : Poller :=
  set_retry now (clear_pending p).

(** The part of [checkModelStatus] up to [await fetch] (lines 40-57).
    [lastCheckTime] is the variable of the enclosing render that the
    function closes over. *)
Definition checkModelStatus_start (lastCheckTime' : Z) (currentTime : Z) (p : Poller)
  : Poller :=
  if (currentTime - lastCheckTime' <? 60000) && negb (lastCheckTime' =? 0) then p
  else
    {| modelStatus := modelStatus p; lastCheckTime := currentTime;
       checkTimeoutRef := checkTimeoutRef p; timers := timers p;
       next_timer := next_timer p; in_flight := S (in_flight p);
       requests := requests p ++ [currentTime] |}.

(** The [catch] block (lines 80-93). *)
Definition on_failure (now : Z) (p : Poller) : Poller :=
  schedule_retry now (setModelStatus error p).

Section WithNumbers.
Context `{NumberOps}.

(** The rest of [checkModelStatus], once the request is answered at time
    [now] (lines 59-94). *)
Definition checkModelStatus_settle (response : StatusResponse) (now : Z) (p : Poller)
  : Poller :=
  match response with
  | FetchRejected => on_failure now p
  | Responded false _ => on_failure now p
  | Responded true None => on_failure now p
  | Responded true (Some data) =>
      match get_property data (lit "status") with
      | None => on_failure now p
      | Some status =>
          if property_truthy status then clear_pending (setModelStatus ready p)
          else schedule_retry now p
      end
  end.

(** The answers that end in the [catch] block: the request failed, the
    status was not 2xx, the body was not JSON, or it was [null], on which
    the read of [status] throws. *)
Definition is_failure (response : StatusResponse) : bool :=
  match response with
  | FetchRejected | Responded false _ | Responded true None => true
  | Responded true (Some data) =>
      match get_property data (lit "status") with
      | None => true
      | Some _ => false
      end
  end.

(** What happens to the mounted component. *)
Inductive Event :=
  | EffectRuns (now : Z)                        (* the effect calls [checkModelStatus()] *)
  | TimerFires (id : positive) (now : Z)        (* a pending timer that is due calls it *)
  | Answered (response : StatusResponse) (now : Z) (* a request in flight is answered *)
  | Cleanup.                                    (* the cleanup function of the effect *)

(** The effect has no dependencies: it runs with the closure of the first
    render, and so does every timer it sets. The [lastCheckTime] which
    that closure reads is the constant of the first render; later calls of
    [setLastCheckTime] change the state of later renders only. *)
Definition closure_lastCheckTime : Z := lastCheckTime initial.

Definition checkModelStatus (now : Z) (p : Poller) : Poller :=
  checkModelStatus_start closure_lastCheckTime now p.

Definition step (p : Poller) (e : Event) : Poller :=
  match e with
  | EffectRuns now => checkModelStatus now p
  | TimerFires id now =>
      match timers p !! id with
      | Some due =>
          if due <=? now then
            checkModelStatus now
              {| modelStatus := modelStatus p; lastCheckTime := lastCheckTime p;
                 checkTimeoutRef := checkTimeoutRef p; timers := delete id (timers p);
                 next_timer := next_timer p; in_flight := in_flight p;
                 requests := requests p |}
          else p
      | None => p
      end
  | Answered response now =>
      match in_flight p with
      | O => p
      | S n =>
          checkModelStatus_settle response now
            {| modelStatus := modelStatus p; lastCheckTime := lastCheckTime p;
               checkTimeoutRef := checkTimeoutRef p; timers := timers p;
               next_timer := next_timer p; in_flight := n; requests := requests p |}
      end
  | Cleanup => clear_pending p
  end.

Definition run (events : list Event) : Poller := foldl step initial events.

(** The flag is no longer [loading]. *)
Definition left_loading (s : ModelStatus) : bool :=
  match s with loading => false | ready | error => true end.

(** The answers after which a timer is set: all but a 2xx answer whose
    [status] is truthy. *)
Definition asks_again (response : StatusResponse) : bool :=
  match response with
  | Responded true (Some data) =>
      match get_property data (lit "status") with
      | Some status => negb (property_truthy status)
      | None => true
      end
  | _ => true
  end.

Definition is_EffectRuns (e : Event) : bool :=
  match e with EffectRuns _ => true | _ => false end.

(** Every pending timer is the one whose handle the ref holds. *)
Definition timers_tracked (p : Poller) : Prop :=
  forall id, is_Some (timers p !! id) -> checkTimeoutRef p = Some id.

End WithNumbers.

End Poller.

(** ** More of the page: [handleRestart], and chunks cut between characters *)

Module ChatMore.
Import Chat.

(** [handleRestart] (lines 199-202): the restart button clears the
    messages and the input. It is disabled only while the model is not
    ready, so it can be pressed while an answer is streaming. *)
Definition handleRestart (p : Page) : Page :=
  {| messages := []; input := []; isLoading := isLoading p; effects := effects p |}.


(** The state of the UTF-8 decoder after some bytes, the end of the input
    not yet seen: the transitions of [utf8_run]. *)
Fixpoint utf8_state_after (st : utf8_state) (bs : list N) : utf8_state :=
  match bs with
  | [] => st
  | b :: rest =>
      if bytes_needed st =? 0 then utf8_state_after (snd (utf8_lead b)) rest
      else if (b <? lower_boundary st) || (upper_boundary st <? b) then
        utf8_state_after (snd (utf8_lead b)) rest
      else
        if bytes_seen st + 1 =? bytes_needed st then utf8_state_after utf8_init rest
        else utf8_state_after
               {| code_point := N.lor (N.shiftl (code_point st) 6) (N.land b 0x3F);
                  bytes_seen := bytes_seen st + 1;
                  bytes_needed := bytes_needed st;
                  lower_boundary := 0x80; upper_boundary := 0xBF |} rest
  end.

(** The chunk ends between two characters: the decoder expects no
    continuation byte after it. *)
Definition ends_at_character (value : list byte) : bool :=
  bytes_needed (utf8_state_after utf8_init (map Byte.to_N value)) =? 0.

(** The chunk starts with a byte order mark, the bytes EF BB BF, which
    the decoder reads as U+FEFF. *)
Definition starts_with_BOM (value : list byte) : bool :=
  match utf8_run utf8_init (map Byte.to_N value) with
  | c :: _ => c =? BOM
  | [] => false
  end.

(** Every chunk but the last ends between two characters, and no chunk
    but the first starts with a byte order mark. *)
Fixpoint cut_between_characters (chunks : list (list byte)) : bool :=
  match chunks with
  | [] => true
  | value :: rest =>
      match rest with
      | [] => true
      | _ :: _ => ends_at_character value
                  && forallb (fun v => negb (starts_with_BOM v)) rest
                  && cut_between_characters rest
      end
  end.

End ChatMore.

(** ** The snake game of the loading modal: [LoadingModal] *)

Module Snake.

Local Open Scope Z_scope.

Inductive Direction := UP | DOWN | LEFT | RIGHT.

Record Position := { x : Z; y : Z }.

Definition GRID_SIZE : Z := 20.

Definition INITIAL_SNAKE : list Position :=
  [ {| x := 10; y := 10 |}; {| x := 9; y := 10 |}; {| x := 8; y := 10 |} ].

(** The state hooks of [LoadingModal], its [status] prop, and the
    [snake] of the render in which the current [moveSnake] was created:
    [moveSnake] is memoized on [direction], [food], [gameOver],
    [generateFood], [status] and [isPlaying], not on [snake], and the
    [checkCollision] it calls is the one of that render. *)
Record Game := {
  snake : list Position;
  food : Position;
  direction : Direction;
  score : nat;
  gameOver : bool;
  isPlaying : bool;
  status : Poller.ModelStatus;
  rendered_snake : list Position
}.

(** The first render. The modal is mounted while the model loads. *)
Definition initial : Game :=
  {| snake := INITIAL_SNAKE; food := {| x := 15; y := 10 |}; direction := RIGHT;
     score := 0; gameOver := false; isPlaying := false; status := Poller.loading;
     rendered_snake := INITIAL_SNAKE |}.

Definition same_cell (a b : Position) : bool := (x a =? x b) && (y a =? y b).

(** [checkCollision(head)] (lines 48-63), [snake] being the one the
    function closes over. *)
Definition checkCollision (snake : list Position) (head : Position) : bool :=
  if (x head <? 0) || (x head >=? GRID_SIZE) || (y head <? 0) || (y head >=? GRID_SIZE)
  then true
  else existsb (same_cell head) (drop 1 snake).

(** The [switch] on the direction (lines 72-77). *)
Definition advance (d : Direction) (head : Position) : Position :=
  match d with
  | UP => {| x := x head; y := y head - 1 |}
  | DOWN => {| x := x head; y := y head + 1 |}
  | LEFT => {| x := x head - 1; y := y head |}
  | RIGHT => {| x := x head + 1; y := y head |}
  end.

Definition status_eqb (a b : Poller.ModelStatus) : bool :=
  match a, b with
  | Poller.loading, Poller.loading | Poller.ready, Poller.ready
  | Poller.error, Poller.error => true
  | _, _ => false
  end.

Definition direction_eqb (a b : Direction) : bool :=
  match a, b with
  | UP, UP | DOWN, DOWN | LEFT, LEFT | RIGHT, RIGHT => true
  | _, _ => false
  end.

(** The render that follows an update. [useCallback] makes a new
    [moveSnake], which sees the snake of this render, when one of its
    dependencies changed: [food] is compared by identity and every
    [setFood] stores a new object. *)
Definition render (before : Game) (food_set : bool) (after : Game) : Game :=
  let changed :=
    negb (direction_eqb (direction before) (direction after))
    || food_set
    || negb (Bool.eqb (gameOver before) (gameOver after))
    || negb (status_eqb (status before) (status after))
    || negb (Bool.eqb (isPlaying before) (isPlaying after)) in
  {| snake := snake after; food := food after; direction := direction after;
     score := score after; gameOver := gameOver after; isPlaying := isPlaying after;
     status := status after;
     rendered_snake := if changed then snake after else rendered_snake before |}.

(** [moveSnake] (lines 66-96), called by the interval. [newFood] is what
    [generateFood] draws if the food is eaten: both coordinates are
    [Math.floor(Math.random() * GRID_SIZE)]. The second component tells
    whether [setFood] was called. On an empty snake the head has no
    coordinates, no test succeeds and the snake stays empty. React is
    taken to call the updater of [setSnake] once, as a production build
    does; [moveSnake_called] below has the further calls that StrictMode
    makes in a development build, which change the score only. *)
Definition moveSnake (newFood : Position) (g : Game) : Game * bool :=
  if gameOver g || status_eqb (status g) Poller.ready || negb (isPlaying g) then (g, false)
  else
    match snake g with
    | [] => (g, false)
    | first :: _ =>
        let head := advance (direction g) first in
        if checkCollision (rendered_snake g) head then
          ({| snake := snake g; food := food g; direction := direction g;
              score := score g; gameOver := true; isPlaying := isPlaying g;
              status := status g; rendered_snake := rendered_snake g |}, false)
        else
          let newSnake := head :: snake g in
          if (x head =? x (food g)) && (y head =? y (food g)) then
            ({| snake := newSnake; food := newFood; direction := direction g;
                score := score g + 1; gameOver := gameOver g; isPlaying := isPlaying g;
                status := status g; rendered_snake := rendered_snake g |}, true)
          else
            ({| snake := removelast newSnake; food := food g; direction := direction g;
                score := score g; gameOver := gameOver g; isPlaying := isPlaying g;
                status := status g; rendered_snake := rendered_snake g |}, false)
    end.

Inductive Key := ArrowUp | ArrowDown | ArrowLeft | ArrowRight | OtherKey.

(** The updaters of [handleKeyPress] (lines 99-106). *)
Definition turn (key : Key) (prev : Direction) : Direction :=
  match key with
  | ArrowUp => match prev with DOWN => prev | _ => UP end
  | ArrowDown => match prev with UP => prev | _ => DOWN end
  | ArrowLeft => match prev with RIGHT => prev | _ => LEFT end
  | ArrowRight => match prev with LEFT => prev | _ => RIGHT end
  | OtherKey => prev
  end.

Definition handleKeyPress (key : Key) (g : Game) : Game :=
  {| snake := snake g; food := food g; direction := turn key (direction g);
     score := score g; gameOver := gameOver g; isPlaying := isPlaying g;
     status := status g; rendered_snake := rendered_snake g |}.

(** [startGame] (lines 38-45), [newFood] being what [generateFood] draws. *)
Definition startGame (newFood : Position) (g : Game) : Game :=
  {| snake := INITIAL_SNAKE; food := newFood; direction := RIGHT; score := 0;
     gameOver := false; isPlaying := true; status := status g;
     rendered_snake := rendered_snake g |}.

Definition setStatus (s : Poller.ModelStatus) (g : Game) : Game :=
  {| snake := snake g; food := food g; direction := direction g; score := score g;
     gameOver := gameOver g; isPlaying := isPlaying g; status := s;
     rendered_snake := rendered_snake g |}.

(** What happens to the mounted modal. *)
Inductive Event :=
  | Tick (newFood : Position)             (* the interval calls [moveSnake] *)
  | KeyDown (key : Key)                   (* a key is pressed *)
  | StartGame (newFood : Position)        (* the button is clicked *)
  | StatusProp (s : Poller.ModelStatus).  (* the page passes a new [status] *)

(** An event and the render that follows it. *)
Definition step (g : Game) (e : Event) : Game :=
  match e with
  | Tick newFood => let '(g', food_set) := moveSnake newFood g in render g food_set g'
  | KeyDown key => render g false (handleKeyPress key g)
  | StartGame newFood => render g true (startGame newFood g)
  | StatusProp s => render g false (setStatus s g)
  end.

Definition run (events : list Event) : Game := foldl step initial events.

Definition in_grid (p : Position) : bool :=
  (0 <=? x p) && (x p <? GRID_SIZE) && (0 <=? y p) && (y p <? GRID_SIZE).

(** The food that an event draws, if it draws one. *)
Definition drawn_in_grid (e : Event) : bool :=
  match e with
  | Tick newFood | StartGame newFood => in_grid newFood
  | _ => true
  end.

(** The direction opposite to a direction. *)
Definition opposite (d : Direction) : Direction :=
  match d with UP => DOWN | DOWN => UP | LEFT => RIGHT | RIGHT => LEFT end.

(** The game is running: the interval moves the snake. *)
Definition running (g : Game) : bool :=
  negb (gameOver g) && negb (status_eqb (status g) Poller.ready) && isPlaying g.

Definition is_StartGame (e : Event) : bool :=
  match e with StartGame _ => true | _ => false end.

Definition is_StatusProp (e : Event) : bool :=
  match e with StatusProp _ => true | _ => false end.

(** The step of a direction on each axis. *)
Definition dx (d : Direction) : Z :=
  match d with LEFT => -1 | RIGHT => 1 | _ => 0 end.
Definition dy (d : Direction) : Z :=
  match d with UP => -1 | DOWN => 1 | _ => 0 end.

(** The cells of a straight run: [k] steps from [h], the last first. *)
Fixpoint straight (d : Direction) (h : Position) (k : nat) : list Position :=
  match k with
  | O => []
  | S k' => Nat.iter (S k') (advance d) h :: straight d h k'
  end.

(** The snake lags behind the snake that [checkCollision] sees by a
    straight run in direction [d]: it is that run followed by the
    rendered snake, cut to the length of the rendered snake. *)
Definition follows (d : Direction) (rendered current : list Position) : Prop :=
  match rendered with
  | [] => current = []
  | h :: rest =>
      exists k, current = take (S (length rest)) (straight d h k ++ h :: rest)
  end.

(** No cell is occupied twice, and the snake follows the rendered one. *)
Definition sound (g : Game) : Prop :=
  List.NoDup (snake g) /\ follows (direction g) (rendered_snake g) (snake g).

(** React calls the updater passed to [setSnake] once and, under
    StrictMode in a development build, again: the value returned counts
    once, but every call runs the [setGameOver], [setScore] and
    [generateFood] that the body calls (lines 80, 88 and 89).
    [moveSnake_called] is [moveSnake] when React makes [extra] calls
    beyond the first: [setGameOver(true)] sets the same value each time,
    [setScore(prev => prev + 1)] adds one for each call, and of the draws
    of [generateFood] the last one stays, which [newFood] stands for. *)
Definition moveSnake_called (extra : nat) (newFood : Position) (g : Game) : Game * bool :=
  if gameOver g || status_eqb (status g) Poller.ready || negb (isPlaying g) then (g, false)
  else
    match snake g with
    | [] => (g, false)
    | first :: _ =>
        let head := advance (direction g) first in
        if checkCollision (rendered_snake g) head then
          ({| snake := snake g; food := food g; direction := direction g;
              score := score g; gameOver := true; isPlaying := isPlaying g;
              status := status g; rendered_snake := rendered_snake g |}, false)
        else
          let newSnake := head :: snake g in
          if (x head =? x (food g)) && (y head =? y (food g)) then
            ({| snake := newSnake; food := newFood; direction := direction g;
                score := score g + 1 + extra; gameOver := gameOver g;
                isPlaying := isPlaying g;
                status := status g; rendered_snake := rendered_snake g |}, true)
          else
            ({| snake := removelast newSnake; food := food g; direction := direction g;
                score := score g; gameOver := gameOver g; isPlaying := isPlaying g;
                status := status g; rendered_snake := rendered_snake g |}, false)
    end.

(** An event, with the number of calls that React makes beyond the first
    to the updaters it queues, and the render that follows. The updaters
    of [handleKeyPress] only compute a direction and [startGame] passes
    values, so the number matters for a tick only. *)
Definition step_called (g : Game) (e : nat * Event) : Game :=
  match snd e with
  | Tick newFood =>
      let '(g', food_set) := moveSnake_called (fst e) newFood g in render g food_set g'
  | other => step g other
  end.

Definition run_called (events : list (nat * Event)) : Game :=
  foldl step_called initial events.

(** Two states that differ by the score at most. *)
Definition same_board (g g' : Game) : Prop :=
  snake g = snake g' /\ food g = food g' /\ direction g = direction g' /\
  gameOver g = gameOver g' /\ isPlaying g = isPlaying g' /\ status g = status g' /\
  rendered_snake g = rendered_snake g'.

End Snake.

(** ** Concrete inputs *)

(** The bytes of an ASCII text in which an apostrophe stands for the
    double quote of JSON. *)
Definition ascii_bytes (s : String.string) : list byte :=
  map (fun b => match b with x27 => x22 | _ => b end) (list_byte_of_string s).

(** The code units of the same text. *)
Definition ascii_text (s : String.string) : js_string :=
  map Byte.to_N (ascii_bytes s).

(** A stream of one record whose delta is the two-byte character U+00E9,
    whole and cut between the two bytes. *)
Definition e_acute_whole : list byte :=
  ascii_bytes "data: {'content':'" ++ [xc3; xa9] ++ ascii_bytes "'}" ++ [x0a; x0a].
Definition e_acute_first : list byte :=
  ascii_bytes "data: {'content':'" ++ [xc3].
Definition e_acute_second : list byte :=
  [xa9] ++ ascii_bytes "'}" ++ [x0a; x0a].

(** The two chunks of the example of the specification. *)
Definition hello_first : list byte := ascii_bytes "data: {'content':'Hel".
Definition hello_second : list byte := ascii_bytes "lo'}" ++ [x0a; x0a].

(** Two records, the blank line after the first one cut between the
    chunks. *)
Definition greeting_first : list byte :=
  ascii_bytes "data: {'content':'Hello'}" ++ [x0a].
Definition greeting_second : list byte :=
  [x0a] ++ ascii_bytes "data: {'content':' there'}" ++ [x0a; x0a].

(** Three records, the blank line after the second one cut between the
    chunks: the first chunk completes the first record. *)
Definition letters_first : list byte :=
  ascii_bytes "data: {'content':'A'}" ++ [x0a; x0a] ++ ascii_bytes "data: {'content':'B'}"
    ++ [x0a].
Definition letters_second : list byte :=
  [x0a] ++ ascii_bytes "data: {'content':'C'}" ++ [x0a; x0a].

(** Three records, the second with a payload that is not JSON, in two
    chunks. *)
Definition garbled_first : list byte :=
  ascii_bytes "data: {'content':'A'}" ++ [x0a; x0a] ++ ascii_bytes "data: {oops"
    ++ [x0a; x0a].
Definition garbled_second : list byte :=
  ascii_bytes "data: {'content':'B'}" ++ [x0a; x0a].

(** Two records, the second cut inside its payload. *)
Definition ordered_first : list byte :=
  ascii_bytes "data: {'content':'Hel'}" ++ [x0a; x0a] ++ ascii_bytes "data: {'con".
Definition ordered_second : list byte :=
  ascii_bytes "tent':'lo'}" ++ [x0a; x0a].

(** A page on which the user has typed a question. *)
Definition asking (shown : list Chat.Message) (text : js_string) : Chat.Page :=
  {| Chat.messages := shown; Chat.input := text; Chat.isLoading := false;
     Chat.effects := [] |}.

(** The payloads of the status endpoint: an object whose [status] is
    [true] or [false]. *)
Definition status_payload (ready : bool) : json :=
  JObject [(lit "status", JBool ready)].

(** An instance of the number operations, for running the model on
    streams and answers that carry no number: it writes a number as its
    numeral and takes every number as truthy. *)
Definition numerals_as_written : NumberOps :=
  {| Number_toString := fun numeral => numeral;
     Number_truthy := fun _ => true |}.

(** A game in which the snake eats three times, turns back along its
    body and then runs towards the cell that its tail has left. *)
Definition cell (a b : Z) : Snake.Position := {| Snake.x := a; Snake.y := b |}.

Definition towards_the_freed_cell : list Snake.Event :=
  [ Snake.StartGame (cell 11 10); Snake.Tick (cell 12 10); Snake.Tick (cell 13 10);
    Snake.Tick (cell 0 0);
    Snake.KeyDown Snake.ArrowDown; Snake.Tick (cell 0 0);
    Snake.KeyDown Snake.ArrowLeft; Snake.Tick (cell 0 0); Snake.Tick (cell 0 0);
    Snake.Tick (cell 0 0);
    Snake.KeyDown Snake.ArrowUp; Snake.Tick (cell 0 0);
    Snake.KeyDown Snake.ArrowRight; Snake.Tick (cell 0 0); Snake.Tick (cell 0 0) ].

(** A record whose delta is U+00E9, cut after the character. *)
Definition accent_first : list byte :=
  ascii_bytes "data: {'content':'" ++ [xc3; xa9].
Definition accent_second : list byte := ascii_bytes "'}" ++ [x0a; x0a].

(** A complete record, and a record that no blank line follows. *)
Definition terminated_A : list byte :=
  ascii_bytes "data: {'content':'A'}" ++ [x0a; x0a].
Definition unterminated_B : list byte := ascii_bytes "data: {'content':'B'}".

(** A comment line, an event without the space after the colon, and a
    data record, each followed by a blank line. *)
Definition mixed_records : list byte :=
  ascii_bytes ": ping" ++ [x0a; x0a] ++ ascii_bytes "data:{'content':'x'}" ++ [x0a; x0a]
    ++ ascii_bytes "data: {'content':'y'}" ++ [x0a; x0a].

(** A delta that arrives after the restart button was pressed. *)
Definition late_delta : list byte :=
  ascii_bytes "data: {'content':'late'}" ++ [x0a; x0a].

(** A game that was started and has moved one cell to the right. *)
Definition one_step_right : list Snake.Event :=
  [ Snake.StartGame (cell 0 0); Snake.Tick (cell 0 0) ].

(** * Properties *)

(** ** Splitting a text into records *)

Section Split.

(** Two-step induction, the recursion scheme of [split_blank_line]. *)
Lemma js_string_ind2 (P : js_string -> Prop) :
  P [] ->
  (forall c, P [c]) ->
  (forall c d s, P s -> P (d :: s) -> P (c :: d :: s)) ->
  forall s, P s.
Proof.
  intros H0 H1 H2 s.
  assert (P s /\ forall c, P (c :: s)) as [Hs _]; [|exact Hs].
  induction s as [|d s [IH1 IH2]]; split; auto.
Qed.

Lemma split_blank_line_cons c d s :
  split_blank_line (c :: d :: s) =
  if (c =? LF) && (d =? LF) then [] :: split_blank_line s
  else match split_blank_line (d :: s) with
       | piece :: pieces => (c :: piece) :: pieces
       | [] => [[c]]
       end.
Proof. reflexivity. Qed.

Lemma split_blank_line_nonempty (s : js_string) : split_blank_line s <> [].
Proof.
  destruct s as [|c [|d s]]; [discriminate | discriminate |].
  rewrite split_blank_line_cons.
  destruct ((c =? LF) && (d =? LF)); [discriminate|].
  destruct (split_blank_line (d :: s)); discriminate.
Qed.

(** A text without a blank line is its own only piece. *)
Lemma split_blank_line_single s piece :
  split_blank_line s = [piece] -> piece = s.
Proof.
  revert piece. induction s as [| c | c d s IHs IHds] using js_string_ind2;
    intros piece.
  - intros [= <-]. reflexivity.
  - intros [= <-]. reflexivity.
  - rewrite split_blank_line_cons.
    destruct ((c =? LF) && (d =? LF)).
    + intros Heq. pose proof (split_blank_line_nonempty s) as Hne.
      destruct (split_blank_line s); [done | discriminate].
    + destruct (split_blank_line (d :: s)) as [|q qs] eqn:E.
      * exfalso. exact (split_blank_line_nonempty _ E).
      * intros [= <- ->]. f_equal. now apply IHds.
Qed.

(** Appending text changes only the last piece: the pieces before it stay
    and the last one is split again with the new text. *)
Lemma split_blank_line_app a t :
  split_blank_line (a ++ t) =
  removelast (split_blank_line a)
    ++ split_blank_line (default [] (last (split_blank_line a)) ++ t).
Proof.
  induction a as [| c | c d a IHa IHda] using js_string_ind2.
  - reflexivity.
  - reflexivity.
  - change ((c :: d :: a) ++ t) with (c :: d :: (a ++ t)).
    rewrite !split_blank_line_cons.
    destruct ((c =? LF) && (d =? LF)) eqn:Hsep.
    + rewrite IHa.
      pose proof (split_blank_line_nonempty a) as Hne.
      destruct (split_blank_line a) as [|q qs]; [done|].
      reflexivity.
    + change (d :: a ++ t) with ((d :: a) ++ t). rewrite IHda.
      destruct (split_blank_line (d :: a)) as [|q [|q' qs]] eqn:E.
      * exfalso. exact (split_blank_line_nonempty _ E).
      * apply split_blank_line_single in E. subst q. simpl removelast.
        simpl last. simpl default. rewrite !app_nil_l.
        change ((d :: a) ++ t) with (d :: (a ++ t)).
        change ((c :: d :: a) ++ t) with (c :: d :: (a ++ t)).
        rewrite (split_blank_line_cons c d), Hsep. reflexivity.
      * reflexivity.
Qed.

End Split.

(** ** The fuel of [JSON_parse] *)

Section JsonFuel.

Lemma skip_ws_length s : (length (skip_ws s) <= length s)%nat.
Proof.
  induction s as [|c s IH]; cbn [skip_ws]; [lia|].
  destruct (is_json_ws c); cbn [length]; lia.
Qed.

Lemma skip_ws_cons s c rest :
  skip_ws s = c :: rest -> (length rest < length s)%nat.
Proof.
  intros Hs. pose proof (skip_ws_length s) as Hle.
  rewrite Hs in Hle. cbn [length] in Hle. lia.
Qed.

Lemma parse_string_chars_length s : forall str r,
  parse_string_chars s = Some (str, r) -> (length r < length s)%nat.
Proof.
  induction s as [s IH] using (well_founded_induction
                                 (Wf_nat.well_founded_ltof _ (@length N))).
  unfold Wf_nat.ltof in IH. intros str r. destruct s as [|c rest]; cbn [parse_string_chars]; [discriminate|].
  destruct (c =? 34); [intros [= <- <-]; cbn [length]; lia|].
  destruct (c <? 32); [discriminate|].
  destruct (c =? 92).
  - destruct rest as [|e rest1]; [discriminate|].
    destruct (e =? 117).
    + destruct rest1 as [|h1 [|h2 [|h3 [|h4 rest2]]]]; try discriminate.
      destruct (hex_value h1), (hex_value h2), (hex_value h3), (hex_value h4);
        try discriminate.
      destruct (parse_string_chars rest2) as [[str' r']|] eqn:E; [|discriminate].
      intros [= <- <-]. apply IH in E; cbn [length] in *; lia.
    + destruct (simple_escape e); [|discriminate].
      destruct (parse_string_chars rest1) as [[str' r']|] eqn:E; [|discriminate].
      intros [= <- <-]. apply IH in E; cbn [length] in *; lia.
  - destruct (parse_string_chars rest) as [[str' r']|] eqn:E; [|discriminate].
    intros [= <- <-]. apply IH in E; cbn [length] in *; lia.
Qed.

Lemma span_digits_length s ds r :
  span_digits s = (ds, r) -> (length r <= length s)%nat.
Proof.
  revert ds r. induction s as [|c s IH]; intros ds r; cbn [span_digits].
  - intros [= <- <-]. lia.
  - destruct (is_digit c); [|intros [= <- <-]; lia].
    destruct (span_digits s) as [ds' r'] eqn:E. intros [= <- <-].
    specialize (IH _ _ eq_refl). cbn [length]. lia.
Qed.

Lemma parse_number_length s num r :
  parse_number s = Some (num, r) -> (length r < length s)%nat.
Proof.
  unfold parse_number.
  destruct (parse_sign s) as [sign s1] eqn:Esign.
  assert (length s1 <= length s)%nat as H1.
  { unfold parse_sign in Esign. destruct s as [|c s']; [injection Esign as <- <-; lia|].
    destruct (c =? 45); injection Esign as <- <-; cbn [length]; lia. }
  destruct (parse_int s1) as [[int s2]|] eqn:Eint; [|discriminate].
  assert (length s2 < length s1)%nat as H2.
  { unfold parse_int in Eint. destruct s1 as [|d s']; [discriminate|].
    destruct (d =? 48); [injection Eint as <- <-; cbn [length]; lia|].
    destruct (is_digit d); [|discriminate].
    destruct (span_digits s') as [ds r'] eqn:E. injection Eint as <- <-.
    apply span_digits_length in E. cbn [length]. lia. }
  cbn [mbind option_bind].
  destruct (parse_frac s2) as [[frac s3]|] eqn:Efrac; [|discriminate].
  assert (length s3 <= length s2)%nat as H3.
  { unfold parse_frac in Efrac. destruct s2 as [|c s']; [injection Efrac as <- <-; lia|].
    destruct (c =? 46); [|injection Efrac as <- <-; lia].
    destruct (span_digits s') as [ds r'] eqn:E. destruct ds; [discriminate|].
    injection Efrac as <- <-. apply span_digits_length in E. cbn [length]. lia. }
  cbn [mbind option_bind].
  destruct (parse_exp s3) as [[exp s4]|] eqn:Eexp; [|discriminate].
  assert (length s4 <= length s3)%nat as H4.
  { unfold parse_exp in Eexp. destruct s3 as [|c s']; [injection Eexp as <- <-; lia|].
    destruct ((c =? 101) || (c =? 69)); [|injection Eexp as <- <-; lia].
    destruct (match s' with
              | [] => ([], s')
              | g :: t => if (g =? 43) || (g =? 45) then ([g], t) else ([], s')
              end) as [sg s''] eqn:Esg.
    assert (length s'' <= length s')%nat.
    { destruct s' as [|g t]; [injection Esg as <- <-; lia|].
      destruct ((g =? 43) || (g =? 45)); injection Esg as <- <-; cbn [length]; lia. }
    destruct (span_digits s'') as [ds r'] eqn:E. destruct ds; [discriminate|].
    injection Eexp as <- <-. apply span_digits_length in E. cbn [length]. lia. }
  cbn [mbind option_bind]. intros [= <- <-]. lia.
Qed.

Lemma parse_literal_length name v s v' r :
  name <> [] -> parse_literal name v s = Some (v', r) -> (length r < length s)%nat.
Proof.
  intros Hname. unfold parse_literal.
  destruct (startsWith s name) eqn:Hs; [|discriminate].
  intros [= <- <-]. destruct name as [|c name]; [done|].
  destruct s as [|d s]; [discriminate|].
  cbn [length drop]. rewrite length_drop. lia.
Qed.

Lemma lit_nonempty_true : lit "true" <> [].
Proof. discriminate. Qed.
Lemma lit_nonempty_false : lit "false" <> [].
Proof. discriminate. Qed.
Lemma lit_nonempty_null : lit "null" <> [].
Proof. discriminate. Qed.

Lemma parse_elements_S fuel s :
  parse_elements (S fuel) s =
  ('(v, rest) ← parse_value fuel s;
   match skip_ws rest with
   | c :: rest' =>
       if c =? 44 then '(vs, r) ← parse_elements fuel rest'; Some (v :: vs, r)
       else if c =? 93 then Some ([v], rest')
       else None
   | [] => None
   end).
Proof. reflexivity. Qed.

Lemma parse_members_S fuel s :
  parse_members (S fuel) s =
  match skip_ws s with
  | q :: rest =>
      if q =? 34 then
        '(key, rest1) ← parse_string_chars rest;
        match skip_ws rest1 with
        | c :: rest2 =>
            if c =? 58 then
              '(v, rest3) ← parse_value fuel rest2;
              match skip_ws rest3 with
              | e :: rest4 =>
                  if e =? 44 then
                    '(ms, r) ← parse_members fuel rest4; Some ((key, v) :: ms, r)
                  else if e =? 125 then Some ([(key, v)], rest4)
                  else None
              | [] => None
              end
            else None
        | [] => None
        end
      else None
  | [] => None
  end.
Proof. reflexivity. Qed.

(** Every parser consumes input. *)
Lemma parse_value_length fuel :
  (forall s v r, parse_value fuel s = Some (v, r) -> (length r < length s)%nat) /\
  (forall s vs r, parse_elements fuel s = Some (vs, r) -> (length r < length s)%nat) /\
  (forall s ms r, parse_members fuel s = Some (ms, r) -> (length r < length s)%nat).
Proof.
  induction fuel as [|fuel (IHv & IHe & IHm)]; [repeat split; discriminate|].
  repeat split.
  - intros s v r. cbn [parse_value].
    destruct (skip_ws s) as [|c rest] eqn:Ews; [discriminate|].
    apply skip_ws_cons in Ews.
    destruct (c =? 123).
    { destruct (skip_ws rest) as [|d rest'] eqn:E2; [discriminate|].
      apply skip_ws_cons in E2.
      destruct (d =? 125); [intros [= <- <-]; lia|].
      destruct (parse_members fuel rest) as [[ms r']|] eqn:E3; [|discriminate].
      intros [= <- <-]. apply IHm in E3. lia. }
    destruct (c =? 91).
    { destruct (skip_ws rest) as [|d rest'] eqn:E2; [discriminate|].
      apply skip_ws_cons in E2.
      destruct (d =? 93); [intros [= <- <-]; lia|].
      destruct (parse_elements fuel rest) as [[vs r']|] eqn:E3; [|discriminate].
      intros [= <- <-]. apply IHe in E3. lia. }
    destruct (c =? 34).
    { destruct (parse_string_chars rest) as [[str r']|] eqn:E3; [|discriminate].
      intros [= <- <-]. apply parse_string_chars_length in E3. lia. }
    destruct (c =? 116).
    { intros E3. apply parse_literal_length in E3; [|exact lit_nonempty_true].
      cbn [length] in E3. lia. }
    destruct (c =? 102).
    { intros E3. apply parse_literal_length in E3; [|exact lit_nonempty_false].
      cbn [length] in E3. lia. }
    destruct (c =? 110).
    { intros E3. apply parse_literal_length in E3; [|exact lit_nonempty_null].
      cbn [length] in E3. lia. }
    destruct (parse_number (c :: rest)) as [[num r']|] eqn:E3; [|discriminate].
    intros [= <- <-]. apply parse_number_length in E3. cbn [length] in E3. lia.
  - intros s vs r. cbn [parse_elements].
    destruct (parse_value fuel s) as [[v rest]|] eqn:E1; [|discriminate].
    apply IHv in E1. cbn [mbind option_bind].
    destruct (skip_ws rest) as [|c rest'] eqn:E2; [discriminate|].
    apply skip_ws_cons in E2.
    destruct (c =? 44).
    { destruct (parse_elements fuel rest') as [[vs' r']|] eqn:E3; [|discriminate].
      intros [= <- <-]. apply IHe in E3. lia. }
    destruct (c =? 93); [|discriminate].
    intros [= <- <-]. lia.
  - intros s ms r. cbn [parse_members].
    destruct (skip_ws s) as [|q rest] eqn:Ews; [discriminate|].
    apply skip_ws_cons in Ews.
    destruct (q =? 34); [|discriminate].
    destruct (parse_string_chars rest) as [[key rest1]|] eqn:E1; [|discriminate].
    apply parse_string_chars_length in E1. cbn [mbind option_bind].
    destruct (skip_ws rest1) as [|c rest2] eqn:E2; [discriminate|].
    apply skip_ws_cons in E2.
    destruct (c =? 58); [|discriminate].
    destruct (parse_value fuel rest2) as [[v rest3]|] eqn:E3; [|discriminate].
    apply IHv in E3. cbn [mbind option_bind].
    destruct (skip_ws rest3) as [|e rest4] eqn:E4; [discriminate|].
    apply skip_ws_cons in E4.
    destruct (e =? 44).
    { destruct (parse_members fuel rest4) as [[ms' r']|] eqn:E5; [|discriminate].
      intros [= <- <-]. apply IHm in E5. lia. }
    destruct (e =? 125); [|discriminate].
    intros [= <- <-]. lia.
Qed.

(** With fuel above twice the length of the input, one more unit of fuel
    changes nothing. *)
Lemma parse_value_stable fuel :
  (forall s, (2 * length s + 1 <= fuel)%nat ->
             parse_value (S fuel) s = parse_value fuel s) /\
  (forall s, (2 * length s + 2 <= fuel)%nat ->
             parse_elements (S fuel) s = parse_elements fuel s) /\
  (forall s, (2 * length s + 2 <= fuel)%nat ->
             parse_members (S fuel) s = parse_members fuel s).
Proof.
  induction fuel as [|fuel (IHv & IHe & IHm)]; [repeat split; intros; lia|].
  destruct (parse_value_length fuel) as (Lv & Le & Lm).
  repeat split.
  - intros s Hs. cbn [parse_value].
    destruct (skip_ws s) as [|c rest] eqn:Ews; [reflexivity|].
    apply skip_ws_cons in Ews.
    rewrite (IHm rest), (IHe rest) by lia. reflexivity.
  - intros s Hs. rewrite (parse_elements_S (S fuel) s), (parse_elements_S fuel s).
    rewrite (IHv s) by lia.
    destruct (parse_value fuel s) as [[v rest]|] eqn:E1; [|reflexivity].
    apply Lv in E1. cbn [mbind option_bind].
    destruct (skip_ws rest) as [|c rest'] eqn:E2; [reflexivity|].
    apply skip_ws_cons in E2.
    rewrite (IHe rest') by lia. reflexivity.
  - intros s Hs. rewrite (parse_members_S (S fuel) s), (parse_members_S fuel s).
    destruct (skip_ws s) as [|q rest] eqn:Ews; [reflexivity|].
    apply skip_ws_cons in Ews.
    destruct (q =? 34); [|reflexivity].
    destruct (parse_string_chars rest) as [[key rest1]|] eqn:E1; [|reflexivity].
    apply parse_string_chars_length in E1. cbn [mbind option_bind].
    destruct (skip_ws rest1) as [|c rest2] eqn:E2; [reflexivity|].
    apply skip_ws_cons in E2.
    destruct (c =? 58); [|reflexivity].
    rewrite (IHv rest2) by lia.
    destruct (parse_value fuel rest2) as [[v rest3]|] eqn:E3; [|reflexivity].
    apply Lv in E3. cbn [mbind option_bind].
    destruct (skip_ws rest3) as [|e rest4] eqn:E4; [reflexivity|].
    apply skip_ws_cons in E4.
    rewrite (IHm rest4) by lia. reflexivity.
Qed.

(** [JSON_parse] gives its parser enough fuel: more of it gives the same
    result. *)
Lemma parse_value_enough_fuel text extra :
  parse_value (2 * length text + 2 + extra) text = parse_value (2 * length text + 2) text.
Proof.
  induction extra as [|extra IH]; [now rewrite Nat.add_0_r|].
  rewrite Nat.add_succ_r.
  destruct (parse_value_stable (2 * length text + 2 + extra)) as (Hv & _).
  rewrite Hv by lia. exact IH.
Qed.

End JsonFuel.

Section Records.
Import Chat.

Lemma complete_records_eq s :
  complete_records s = removelast (split_blank_line s).
Proof. reflexivity. Qed.

Lemma pending_tail_eq s :
  pending_tail s = default [] (last (split_blank_line s)).
Proof. reflexivity. Qed.

Lemma pop_split_blank_line s :
  split_blank_line s = complete_records s ++ [pending_tail s].
Proof.
  rewrite complete_records_eq, pending_tail_eq.
  pose proof (split_blank_line_nonempty s) as Hne.
  destruct (split_blank_line s) as [|q qs _] using rev_ind; [done|].
  rewrite removelast_last, last_snoc. reflexivity.
Qed.

Lemma complete_records_app a t :
  complete_records (a ++ t) = complete_records a ++ complete_records (pending_tail a ++ t).
Proof.
  rewrite !complete_records_eq, split_blank_line_app, <- pending_tail_eq.
  rewrite removelast_app by apply split_blank_line_nonempty.
  reflexivity.
Qed.

Lemma pending_tail_app a t :
  pending_tail (a ++ t) = pending_tail (pending_tail a ++ t).
Proof.
  rewrite (pending_tail_eq (a ++ t)), split_blank_line_app, <- pending_tail_eq.
  rewrite (pop_split_blank_line (pending_tail a ++ t)).
  rewrite app_assoc, last_snoc. reflexivity.
Qed.

(** The tail kept as the buffer holds no complete record. *)
Lemma split_pending_tail s :
  split_blank_line (pending_tail s) = [pending_tail s].
Proof.
  pose proof (split_blank_line_app s []) as Happ.
  rewrite !app_nil_r, <- pending_tail_eq, <- complete_records_eq in Happ.
  rewrite (pop_split_blank_line s) in Happ at 1.
  now apply app_inv_head in Happ.
Qed.

Lemma complete_records_no_blank_line s :
  split_blank_line s = [s] -> complete_records s = [] /\ pending_tail s = s.
Proof.
  intros Hs. rewrite complete_records_eq, pending_tail_eq, Hs. done.
Qed.

(** A record whose terminating blank line follows a text without one. *)
Lemma split_blank_line_record x t :
  split_blank_line (x ++ [LF]) = [x ++ [LF]] ->
  split_blank_line (x ++ LF :: LF :: t) = x :: split_blank_line t.
Proof.
  induction x as [| c | c d x IHx IHdx] using js_string_ind2; intros Hx.
  - reflexivity.
  - change ([c] ++ [LF]) with (c :: LF :: []) in Hx.
    change ([c] ++ LF :: LF :: t) with (c :: LF :: LF :: t).
    rewrite split_blank_line_cons in *.
    destruct ((c =? LF) && (LF =? LF)); [discriminate|].
    reflexivity.
  - change ((c :: d :: x) ++ [LF]) with (c :: d :: (x ++ [LF])) in Hx.
    change ((c :: d :: x) ++ LF :: LF :: t) with (c :: d :: (x ++ LF :: LF :: t)).
    rewrite split_blank_line_cons in *.
    destruct ((c =? LF) && (d =? LF)).
    + pose proof (split_blank_line_nonempty (x ++ [LF])) as Hne.
      destruct (split_blank_line (x ++ [LF])); [done | discriminate].
    + change (d :: x ++ LF :: LF :: t) with ((d :: x) ++ LF :: LF :: t).
      rewrite IHdx; [reflexivity|].
      change (d :: x ++ [LF]) with ((d :: x) ++ [LF]) in Hx.
      destruct (split_blank_line ((d :: x) ++ [LF])) as [|q qs] eqn:E.
      * exfalso. exact (split_blank_line_nonempty _ E).
      * injection Hx as Hq Hqs. subst. reflexivity.
Qed.

End Records.

(** ** The read loop *)

Section Stream.
Import Chat.
Context `{NumberOps}.

Lemma hush_emit e p :
  hush (emit e p) = if is_Log_received e then hush p else emit e (hush p).
Proof.
  unfold hush, emit; simpl. rewrite List.filter_app. simpl.
  destruct (is_Log_received e); simpl; [rewrite app_nil_r|]; reflexivity.
Qed.

Lemma hush_setMessages f p :
  setMessages f (hush p) = hush <$> setMessages f p.
Proof. unfold setMessages; simpl. destruct (f (messages p)); reflexivity. Qed.

Lemma hush_setIsLoading v p : hush (setIsLoading v p) = setIsLoading v (hush p).
Proof. reflexivity. Qed.

(** The handling of a record does not look at the console. *)
Lemma hush_process_message message p :
  process_message message (hush p) = hush <$> process_message message p.
Proof.
  unfold process_message.
  destruct (startsWith message DATA_PREFIX); [|reflexivity].
  destruct (JSON_parse (slice_from 6 message)) as [data|]; simpl.
  - destruct (get_property data (lit "content")) as [[|c]|]; simpl;
      rewrite ?hush_emit; simpl; try reflexivity.
    rewrite <- hush_setMessages, hush_emit. reflexivity.
  - rewrite hush_emit. reflexivity.
Qed.

Lemma hush_process_messages msgs p :
  process_messages msgs (hush p) = hush <$> process_messages msgs p.
Proof.
  revert p. induction msgs as [|m msgs IH]; intros p; simpl; [reflexivity|].
  rewrite hush_process_message.
  destruct (process_message m p) as [p'|]; simpl; [apply IH | reflexivity].
Qed.

Lemma process_messages_app l1 l2 p :
  process_messages (l1 ++ l2) p = process_messages l1 p ≫= process_messages l2.
Proof.
  revert p. induction l1 as [|m l1 IH]; intros p; simpl; [reflexivity|].
  destruct (process_message m p) as [p'|]; simpl; [apply IH | reflexivity].
Qed.

(** A turn of the loop handles the complete records of the buffer with
    the new text appended, and keeps the tail. *)
Lemma read_chunk_records value buffer p :
  read_chunk value buffer p =
  p' ← process_messages (complete_records (buffer ++ TextDecoder_decode value))
         (emit (Log_received (TextDecoder_decode value)) p);
  Some (pending_tail (buffer ++ TextDecoder_decode value), p').
Proof.
  unfold read_chunk, complete_records, pending_tail, pop. simpl.
  destruct (last (split_blank_line (buffer ++ TextDecoder_decode value)))
    as [[|c tail]|]; reflexivity.
Qed.

(** Up to the echo of the text received, the loop over the chunks is the
    handling, in order, of the complete records of the whole text: the
    buffer followed by the text of every chunk. *)
Lemma read_loop_records chunks : forall buffer p,
  split_blank_line buffer = [buffer] ->
  prod_map id hush <$> read_loop chunks buffer p =
  (p' ← process_messages (complete_records (buffer ++ decoded_text chunks)) (hush p);
   Some (pending_tail (buffer ++ decoded_text chunks), p')).
Proof.
  induction chunks as [|value rest IH]; intros buffer p Hbuf.
  - unfold decoded_text; simpl. rewrite app_nil_r.
    destruct (complete_records_no_blank_line _ Hbuf) as [-> ->]. reflexivity.
  - simpl read_loop. rewrite read_chunk_records.
    change (decoded_text (value :: rest))
      with (TextDecoder_decode value ++ decoded_text rest).
    set (text := TextDecoder_decode value).
    rewrite app_assoc, (complete_records_app (buffer ++ text)),
      (pending_tail_app (buffer ++ text)), process_messages_app.
    assert (hush p = hush (emit (Log_received text) p)) as -> by (now rewrite hush_emit).
    rewrite hush_process_messages.
    destruct (process_messages (complete_records (buffer ++ text))
                (emit (Log_received text) p)) as [p1|]; simpl; [|reflexivity].
    apply IH, split_pending_tail.
Qed.

(** The loop of [handleSubmit] starts with the empty buffer. *)
Lemma read_loop_text chunks p :
  prod_map id hush <$> read_loop chunks [] p =
  (p' ← process_messages (complete_records (decoded_text chunks)) (hush p);
   Some (pending_tail (decoded_text chunks), p')).
Proof. now rewrite read_loop_records. Qed.

(** Two ways of cutting a stream whose chunks decode to the same text
    give the same messages, the same buffer and, the echo of the text
    apart, the same console. *)
Lemma read_loop_same_text chunks chunks' p :
  decoded_text chunks = decoded_text chunks' ->
  prod_map id hush <$> read_loop chunks [] p =
  prod_map id hush <$> read_loop chunks' [] p.
Proof. intros Heq. now rewrite !read_loop_text, Heq. Qed.

End Stream.

(** ** Records and the open message *)

Section Deltas.
Import Chat.
Context `{NumberOps}.

Lemma append_content_open delta earlier open :
  append_content (JString delta) (earlier ++ [open]) =
  Some (earlier ++ [with_delta open delta]).
Proof.
  unfold append_content. simpl. rewrite removelast_last, last_snoc. reflexivity.
Qed.

Lemma process_message_frame message p p' :
  process_message message p = Some p' ->
  input p' = input p /\ isLoading p' = isLoading p /\
  exists l, effects p' = effects p ++ l /\ forallb record_effect l = true.
Proof.
  unfold process_message.
  destruct (startsWith message DATA_PREFIX).
  - destruct (JSON_parse (slice_from 6 message)) as [data|].
    + destruct (get_property data (lit "content")) as [[|c]|].
      * intros [= <-]. repeat split. now exists [Log_parsed data].
      * unfold setMessages. simpl.
        destruct (append_content c (messages p)); simpl; [|discriminate].
        intros [= <-]. repeat split. now exists [Log_parsed data].
      * intros [= <-]. repeat split.
        exists [Log_parsed data; Error_parsing_chunk]. simpl.
        now rewrite <- app_assoc.
    + intros [= <-]. repeat split. now exists [Error_parsing_chunk].
  - intros [= <-]. repeat split. exists []. now rewrite app_nil_r.
Qed.

Lemma process_messages_frame msgs : forall p p',
  process_messages msgs p = Some p' ->
  input p' = input p /\ isLoading p' = isLoading p /\
  exists l, effects p' = effects p ++ l /\ forallb record_effect l = true.
Proof.
  induction msgs as [|m msgs IH]; intros p p'; simpl.
  - intros [= <-]. repeat split. exists []. now rewrite app_nil_r.
  - destruct (process_message m p) as [p1|] eqn:E1; simpl; [|discriminate].
    intros E2. apply process_message_frame in E1 as (Hi & Hl & l1 & He1 & Hl1).
    apply IH in E2 as (Hi' & Hl' & l2 & He2 & Hl2).
    repeat split; [congruence | congruence |].
    exists (l1 ++ l2). rewrite He2, He1, <- app_assoc. split; [reflexivity|].
    rewrite forallb_app, Hl1, Hl2. reflexivity.
Qed.

(** A well-formed data record appends its delta to the open message. *)
Lemma process_message_delta message delta p earlier open :
  record_delta message = Some delta ->
  messages p = earlier ++ [open] ->
  exists p', process_message message p = Some p' /\
             messages p' = earlier ++ [with_delta open delta].
Proof.
  unfold record_delta, process_message. intros Hd Hm.
  destruct (startsWith message DATA_PREFIX); [|discriminate].
  destruct (JSON_parse (slice_from 6 message)) as [data|]; [|discriminate].
  simpl in Hd.
  destruct (get_property data (lit "content")) as [[|[]]|]; try discriminate.
  injection Hd as ->.
  unfold setMessages. cbn [messages emit].
  rewrite Hm, append_content_open. simpl. eauto.
Qed.

(** Well-formed data records append their deltas in the order of the
    records. *)
Lemma process_messages_deltas records : forall deltas p earlier open,
  mapM record_delta records = Some deltas ->
  messages p = earlier ++ [open] ->
  exists p', process_messages records p = Some p' /\
             messages p' = earlier ++ [with_delta open (concat deltas)].
Proof.
  induction records as [|m records IH]; intros deltas p earlier open Hd Hm.
  - injection Hd as <-. exists p. split; [reflexivity|].
    rewrite Hm. unfold with_delta. simpl. rewrite app_nil_r. now destruct open.
  - apply mapM_Some in Hd. inversion Hd as [|? d ? ds Hm1 Hrest]; subst.
    destruct (process_message_delta m d p earlier open Hm1 Hm) as (p1 & E1 & Hp1).
    apply mapM_Some in Hrest.
    destruct (IH ds p1 earlier (with_delta open d) Hrest Hp1) as (p2 & E2 & Hp2).
    exists p2. simpl. rewrite E1. simpl. split; [exact E2|].
    rewrite Hp2. unfold with_delta. simpl. now rewrite app_assoc.
Qed.

(** A data record whose payload is not JSON is reported and changes
    nothing else. *)
Lemma process_message_malformed payload p :
  JSON_parse payload = None ->
  process_message (DATA_PREFIX ++ payload) p = Some (emit Error_parsing_chunk p).
Proof.
  intros Hp. unfold process_message.
  change (startsWith (DATA_PREFIX ++ payload) DATA_PREFIX) with true.
  change (slice_from 6 (DATA_PREFIX ++ payload)) with payload.
  now rewrite Hp.
Qed.

(** The result of the loop read off the records of the text. *)
Lemma read_loop_result chunks p q :
  process_messages (complete_records (decoded_text chunks)) (hush p) = Some q ->
  exists p', read_loop chunks [] p = Some (pending_tail (decoded_text chunks), p')
             /\ hush p' = q.
Proof.
  intros Hq. pose proof (read_loop_text chunks p) as Hloop.
  rewrite Hq in Hloop. simpl in Hloop.
  destruct (read_loop chunks [] p) as [[b p']|]; [|discriminate].
  injection Hloop as -> <-. eauto.
Qed.

Lemma read_loop_frame chunks : forall buffer p buffer' p',
  read_loop chunks buffer p = Some (buffer', p') ->
  input p' = input p /\ isLoading p' = isLoading p /\
  exists l, effects p' = effects p ++ l /\ forallb loop_effect l = true.
Proof.
  induction chunks as [|value rest IH]; intros buffer p buffer' p'; simpl.
  - intros [= <- <-]. repeat split. exists []. now rewrite app_nil_r.
  - rewrite read_chunk_records.
    destruct (process_messages _ _) as [p1|] eqn:E1; simpl; [|discriminate].
    intros E2. apply process_messages_frame in E1 as (Hi & Hl & l1 & He1 & Hl1).
    apply IH in E2 as (Hi' & Hl' & l2 & He2 & Hl2).
    simpl in *. repeat split; [congruence | congruence |].
    exists (Log_received (TextDecoder_decode value) :: l1 ++ l2).
    rewrite He2, He1. rewrite <- !app_assoc. split; [reflexivity|].
    simpl. rewrite forallb_app, Hl2, andb_true_r.
    clear -Hl1. induction l1 as [|e l1 IHl]; [reflexivity|].
    simpl in *. apply andb_prop in Hl1 as [He Hl1].
    rewrite (IHl Hl1), andb_true_r. now destruct e.
Qed.

End Deltas.

(** ** Submitting the form *)

Section Submit.
Import Chat.
Context `{NumberOps}.

Lemma trim_start_blank s : forallb is_white_space s = true -> trim_start s = [].
Proof.
  induction s as [|c s IH]; simpl; [reflexivity|].
  intros [Hc Hs]%andb_prop. rewrite Hc. auto.
Qed.

Lemma trim_blank s : forallb is_white_space s = true -> trim s = [].
Proof. intros Hs. unfold trim. now rewrite (trim_start_blank s Hs). Qed.

(** With something typed, [handleSubmit] reaches the request. *)
Lemma handleSubmit_submitted response p :
  string_truthy (trim (input p)) = true ->
  handleSubmit response p =
  (p' ← match response with
        | FetchRejected | NotOk _ | NoBody => on_error (submitted p)
        | Stream chunks e =>
            '(_, p1) ← read_loop chunks [] (submitted p);
            match e with
            | Done => Some p1
            | ReadError => on_error p1
            end
        end;
   Some (setIsLoading false p')).
Proof.
  intros Htyped. unfold handleSubmit. cbn [input emit]. rewrite Htyped.
  cbn [negb]. unfold setMessages. cbn -[read_loop on_error].
  match goal with
  | |- context [emit ?e ?q] =>
      replace (emit e q) with (submitted p)
        by (unfold emit, submitted, userMessage_of; cbn; now rewrite <- !app_assoc)
  end.
  reflexivity.
Qed.

(** The [catch] block on a page whose last message is the open one. *)
Lemma on_error_open p earlier content' :
  messages p = earlier ++ [ {| role := assistant; content := content' |} ] ->
  on_error p =
  Some {| messages := earlier ++ [ {| role := assistant; content := APOLOGY |} ];
          input := input p; isLoading := isLoading p;
          effects := effects p ++ [Error_logged] |}.
Proof.
  intros Hm. unfold on_error, setMessages, show_apology. cbn [messages emit].
  rewrite Hm, last_snoc. cbn [role]. rewrite removelast_last. reflexivity.
Qed.

(** The open message stays the last one, with its role, whatever records
    arrive. *)
Lemma process_message_keeps_open message p p' earlier open :
  process_message message p = Some p' ->
  messages p = earlier ++ [open] ->
  exists content', messages p' = earlier ++ [ {| role := role open; content := content' |} ].
Proof.
  unfold process_message. intros Hp Hm.
  assert (messages p = earlier ++ [ {| role := role open; content := content open |} ])
    as Hsame by (now destruct open).
  destruct (startsWith message DATA_PREFIX).
  - destruct (JSON_parse (slice_from 6 message)) as [data|].
    + destruct (get_property data (lit "content")) as [[|c]|].
      * injection Hp as <-. eauto.
      * unfold setMessages, append_content in Hp. cbn [messages emit] in Hp.
        rewrite Hm, removelast_last, last_snoc in Hp. cbn [default] in Hp.
        destruct (ToString c) as [delta|]; [|discriminate].
        injection Hp as <-. cbn. eauto.
      * injection Hp as <-. eauto.
    + injection Hp as <-. eauto.
  - injection Hp as <-. eauto.
Qed.

Lemma process_messages_keeps_open msgs : forall p p' earlier open,
  process_messages msgs p = Some p' ->
  messages p = earlier ++ [open] ->
  exists content', messages p' = earlier ++ [ {| role := role open; content := content' |} ].
Proof.
  induction msgs as [|m msgs IH]; intros p p' earlier open; simpl.
  - intros [= <-] ->. exists (content open). now destruct open.
  - destruct (process_message m p) as [p1|] eqn:E1; simpl; [|discriminate].
    intros E2 Hm.
    destruct (process_message_keeps_open _ _ _ _ _ E1 Hm) as [c1 Hc1].
    exact (IH _ _ _ _ E2 Hc1).
Qed.

Lemma read_loop_keeps_open chunks : forall buffer p buffer' p' earlier open,
  read_loop chunks buffer p = Some (buffer', p') ->
  messages p = earlier ++ [open] ->
  exists content', messages p' = earlier ++ [ {| role := role open; content := content' |} ].
Proof.
  induction chunks as [|value rest IH]; intros buffer p buffer' p' earlier open; simpl.
  - intros [= <- <-] ->. exists (content open). now destruct open.
  - rewrite read_chunk_records.
    destruct (process_messages _ _) as [p1|] eqn:E1; simpl; [|discriminate].
    intros E2 Hm.
    destruct (process_messages_keeps_open _ _ _ earlier open E1) as [c1 Hc1];
      [exact Hm|].
    exact (IH _ _ _ _ _ _ E2 Hc1).
Qed.

End Submit.

(** ** Decoding seven-bit text *)

Section Ascii.
Import Chat.

Lemma utf8_run_ascii bs :
  forallb is_ascii bs = true ->
  utf8_run utf8_init (map Byte.to_N bs) = map Byte.to_N bs.
Proof.
  induction bs as [|b bs IH]; [reflexivity|].
  cbn [forallb map]. intros [Hb Hbs]%andb_prop.
  cbn [utf8_run utf8_init bytes_needed]. unfold utf8_lead.
  unfold is_ascii in Hb. rewrite N.eqb_refl, Hb. cbn [app]. now rewrite IH.
Qed.

Lemma utf16_encode_ascii bs :
  forallb is_ascii bs = true ->
  utf16_encode (map Byte.to_N bs) = map Byte.to_N bs.
Proof.
  induction bs as [|b bs IH]; [reflexivity|].
  cbn [forallb map]. intros [Hb Hbs]%andb_prop.
  unfold utf16_encode in *. cbn [map concat]. rewrite IH by assumption.
  unfold utf16_units. unfold is_ascii in Hb. apply N.leb_le in Hb.
  destruct (N.ltb_spec (Byte.to_N b) 0x10000); [reflexivity | lia].
Qed.

Lemma strip_BOM_ascii bs :
  forallb is_ascii bs = true ->
  strip_BOM (map Byte.to_N bs) = map Byte.to_N bs.
Proof.
  destruct bs as [|b bs]; [reflexivity|].
  cbn [forallb map]. intros [Hb _]%andb_prop.
  unfold strip_BOM, BOM. unfold is_ascii in Hb. apply N.leb_le in Hb.
  destruct (N.eqb_spec (Byte.to_N b) 0xFEFF); [lia | reflexivity].
Qed.

(** Seven-bit bytes decode to themselves. *)
Lemma TextDecoder_decode_ascii bs :
  forallb is_ascii bs = true ->
  TextDecoder_decode bs = map Byte.to_N bs.
Proof.
  intros Hbs. unfold TextDecoder_decode.
  now rewrite utf8_run_ascii, strip_BOM_ascii, utf16_encode_ascii.
Qed.

Lemma forallb_concat {A} (f : A -> bool) (ls : list (list A)) :
  forallb (forallb f) ls = true -> forallb f (concat ls) = true.
Proof.
  induction ls as [|l ls IH]; [reflexivity|].
  cbn [forallb concat]. intros [Hl Hls]%andb_prop.
  now rewrite forallb_app, Hl, IH.
Qed.

(** The text of a seven-bit stream does not depend on where it is cut. *)
Lemma decoded_text_ascii chunks :
  forallb (forallb is_ascii) chunks = true ->
  decoded_text chunks = TextDecoder_decode (concat chunks).
Proof.
  intros Hall.
  rewrite (TextDecoder_decode_ascii (concat chunks)) by now apply forallb_concat.
  induction chunks as [|c chunks IH]; [reflexivity|].
  cbn [forallb] in Hall. apply andb_prop in Hall as [Hc Hall].
  unfold decoded_text in *. cbn [map concat].
  now rewrite IH, TextDecoder_decode_ascii, map_app.
Qed.

End Ascii.

(** ** Decoding around a line feed *)

Section LineFeed.

Lemma utf8_lead_lower b : 0x80 <= lower_boundary (snd (utf8_lead b)).
Proof.
  unfold utf8_lead.
  repeat match goal with
         | |- context [if ?c then _ else _] => destruct c
         end; cbn; lia.
Qed.

(** A line feed never continues a sequence: it ends a pending one with
    U+FFFD and stands for itself. *)
Lemma utf8_run_snoc_LF bs : forall st,
  0x80 <= lower_boundary st ->
  utf8_run st (bs ++ [LF]) = utf8_run st bs ++ [LF].
Proof.
  induction bs as [|b bs IH]; intros st Hst.
  - cbn [app utf8_run].
    destruct (bytes_needed st =? 0); [reflexivity|].
    destruct (N.ltb_spec LF (lower_boundary st)); [reflexivity | unfold LF in *; lia].
  - cbn [app utf8_run].
    pose proof (utf8_lead_lower b) as Hlead.
    destruct (utf8_lead b) as [out st'] eqn:Elead. cbn [snd] in Hlead.
    destruct (bytes_needed st =? 0).
    { rewrite (IH st' Hlead). now rewrite app_assoc. }
    destruct ((b <? lower_boundary st) || (upper_boundary st <? b)).
    { rewrite (IH st' Hlead). cbn [app]. now rewrite app_assoc. }
    destruct (bytes_seen st + 1 =? bytes_needed st).
    + rewrite (IH utf8_init) by (cbn; lia). reflexivity.
    + rewrite IH by (cbn; lia). reflexivity.
Qed.

Lemma strip_BOM_snoc_LF cps : strip_BOM (cps ++ [LF]) = strip_BOM cps ++ [LF].
Proof.
  destruct cps as [|c cps]; [reflexivity|].
  cbn [app strip_BOM]. now destruct (c =? BOM).
Qed.

Lemma utf16_encode_app a b : utf16_encode (a ++ b) = utf16_encode a ++ utf16_encode b.
Proof. unfold utf16_encode. now rewrite map_app, concat_app. Qed.

(** A chunk that ends with a line feed decodes to the text of what
    precedes, followed by the line feed. *)
Lemma TextDecoder_decode_snoc_LF bs :
  TextDecoder_decode (bs ++ [x0a]) = TextDecoder_decode bs ++ [LF].
Proof.
  unfold TextDecoder_decode. rewrite map_app.
  change (map Byte.to_N [x0a]) with [LF].
  rewrite utf8_run_snoc_LF by (cbn; lia).
  now rewrite strip_BOM_snoc_LF, utf16_encode_app.
Qed.

(** A chunk that starts with a line feed decodes to the line feed
    followed by the text of the rest, in which a byte order mark is not
    dropped, as it does not start the chunk. *)
Lemma TextDecoder_decode_cons_LF bs :
  TextDecoder_decode (x0a :: bs) =
  LF :: utf16_encode (utf8_run utf8_init (map Byte.to_N bs)).
Proof. reflexivity. Qed.

End LineFeed.

(** ** The assembler, end to end *)

Section Assembler.
Import Chat.
Context `{NumberOps}.

Lemma hush_on_error p : on_error (hush p) = hush <$> on_error p.
Proof.
  unfold on_error. rewrite <- hush_setMessages, hush_emit. reflexivity.
Qed.

Lemma hush_submitted_messages p : messages (hush p) = messages p.
Proof. reflexivity. Qed.

(** A stream that ends normally: the page when the loop is over, with
    the loading flag cleared. *)
Lemma handleSubmit_done chunks p tail p1 :
  string_truthy (trim (input p)) = true ->
  read_loop chunks [] (submitted p) = Some (tail, p1) ->
  handleSubmit (Stream chunks Done) p = Some (setIsLoading false p1).
Proof.
  intros Htyped Hloop. rewrite handleSubmit_submitted by assumption.
  now rewrite Hloop.
Qed.

(** A stream of well-formed data records leaves their deltas, in order,
    in the answer. *)
Lemma handleSubmit_deltas chunks deltas p :
  string_truthy (trim (input p)) = true ->
  mapM record_delta (complete_records (decoded_text chunks)) = Some deltas ->
  exists p', handleSubmit (Stream chunks Done) p = Some p' /\
    messages p' = messages p ++ [userMessage_of p;
                                 {| role := assistant; content := concat deltas |}] /\
    input p' = [] /\ isLoading p' = false.
Proof.
  intros Htyped Hd.
  destruct (process_messages_deltas _ deltas (hush (submitted p))
              (messages p ++ [userMessage_of p]) {| role := assistant; content := [] |} Hd)
    as (q & Hq & Hmq).
  { simpl. now rewrite <- app_assoc. }
  destruct (read_loop_result _ _ _ Hq) as (p1 & Hloop & Hp1).
  exists (setIsLoading false p1). split; [now apply (handleSubmit_done _ _ _ _ Htyped Hloop)|].
  apply read_loop_frame in Hloop as (Hi & Hl & _).
  cbn [messages input isLoading setIsLoading]. rewrite Hi.
  rewrite <- (hush_submitted_messages p1), Hp1, Hmq.
  unfold with_delta. cbn. now rewrite <- app_assoc.
Qed.

(** Streams that decode to the same text end in the same page, the echo
    of the text received apart. *)
Lemma handleSubmit_same_text chunks chunks' e p :
  decoded_text chunks = decoded_text chunks' ->
  hush <$> handleSubmit (Stream chunks e) p = hush <$> handleSubmit (Stream chunks' e) p.
Proof.
  intros Htext.
  destruct (string_truthy (trim (input p))) eqn:Htyped.
  - rewrite !handleSubmit_submitted by assumption.
    pose proof (read_loop_same_text chunks chunks' (submitted p) Htext) as Hloop.
    destruct (read_loop chunks [] (submitted p)) as [[b p1]|],
             (read_loop chunks' [] (submitted p)) as [[b' p1']|];
      try discriminate; [|reflexivity].
    assert (hush p1 = hush p1') as Hpages by (cbn in Hloop; congruence).
    cbn [mbind option_bind].
    destruct e.
    + change (Some (hush (setIsLoading false p1)) = Some (hush (setIsLoading false p1'))).
      now rewrite !hush_setIsLoading, Hpages.
    + pose proof (hush_on_error p1) as E1. pose proof (hush_on_error p1') as E1'.
      rewrite Hpages in E1. rewrite E1' in E1.
      destruct (on_error p1) as [q|], (on_error p1') as [q'|];
        try discriminate; [|reflexivity].
      assert (hush q' = hush q) as Hq by (cbn in E1; congruence).
      change (Some (hush (setIsLoading false q)) = Some (hush (setIsLoading false q'))).
      now rewrite !hush_setIsLoading, Hq.
  - unfold handleSubmit. cbn [input emit]. now rewrite Htyped.
Qed.

(** For a seven-bit stream, the cut into chunks does not show in the
    result: it is that of the whole stream delivered as one chunk. *)
Lemma handleSubmit_ascii_chunking chunks e p :
  forallb (forallb is_ascii) chunks = true ->
  hush <$> handleSubmit (Stream chunks e) p =
  hush <$> handleSubmit (Stream [concat chunks] e) p.
Proof.
  intros Hall. apply handleSubmit_same_text.
  rewrite decoded_text_ascii by assumption.
  unfold decoded_text. cbn. now rewrite app_nil_r.
Qed.

End Assembler.

(** ** Properties of the assembler *)

Section AssemblerClaims.
Import Chat.
Context `{NumberOps}.

(** C1 (a defect of the code). The claim asks that a stream cut at any
    byte, also inside a multi-byte UTF-8 character, gives the content
    that the whole stream gives as one chunk. The loop decodes every
    chunk with a decoder of its own, so the two bytes of U+00E9, cut
    apart, become two replacement characters U+FFFD, where the whole
    stream gives the character. *)
Theorem utf8_character_cut_between_chunks :
  e_acute_first ++ e_acute_second = e_acute_whole /\
  messages <$> handleSubmit (Stream [e_acute_whole] Done) (asking [] (lit "hi")) =
    Some [ {| role := user; content := lit "hi" |};
           {| role := assistant; content := [0xE9] |} ] /\
  messages <$> handleSubmit (Stream [e_acute_first; e_acute_second] Done)
                 (asking [] (lit "hi")) =
    Some [ {| role := user; content := lit "hi" |};
           {| role := assistant; content := [0xFFFD; 0xFFFD] |} ].
Proof. repeat split; reflexivity. Qed.

(** C3. A data record whose payload is not JSON is reported on the
    console and changes nothing else; the loop then handles the records
    that follow it as it would have after the records that precede it.
    When the other records are well formed, the answer is made of their
    deltas, those after the malformed record included, and the only
    effects after the request are those of the loop, the report among
    them: the [catch] block is not reached. *)
Theorem malformed_record_is_skipped :
  (forall (payload : js_string) (p : Page),
     JSON_parse payload = None ->
     process_message (DATA_PREFIX ++ payload) p = Some (emit Error_parsing_chunk p)) /\
  (forall (chunks : list (list byte)) (before after : list js_string)
          (payload : js_string) (p : Page),
     complete_records (decoded_text chunks) = before ++ (DATA_PREFIX ++ payload) :: after ->
     JSON_parse payload = None ->
     prod_map id hush <$> read_loop chunks [] p =
       (p1 ← process_messages before (hush p);
        p2 ← process_messages after (emit Error_parsing_chunk p1);
        Some (pending_tail (decoded_text chunks), p2))) /\
  (forall (chunks : list (list byte)) (before after : list js_string)
          (payload : js_string) (deltas deltas' : list js_string) (p : Page),
     string_truthy (trim (input p)) = true ->
     complete_records (decoded_text chunks) = before ++ (DATA_PREFIX ++ payload) :: after ->
     JSON_parse payload = None ->
     mapM record_delta before = Some deltas ->
     mapM record_delta after = Some deltas' ->
     exists p' l,
       handleSubmit (Stream chunks Done) p = Some p' /\
       messages p' = messages p ++ [userMessage_of p;
                       {| role := assistant; content := concat deltas ++ concat deltas' |}] /\
       isLoading p' = false /\
       effects p' = effects (submitted p) ++ l /\
       forallb loop_effect l = true /\
       In Error_parsing_chunk l).
Proof.
  assert (forall chunks before after payload p,
     complete_records (decoded_text chunks) = before ++ (DATA_PREFIX ++ payload) :: after ->
     JSON_parse payload = None ->
     prod_map id hush <$> read_loop chunks [] p =
       (p1 ← process_messages before (hush p);
        p2 ← process_messages after (emit Error_parsing_chunk p1);
        Some (pending_tail (decoded_text chunks), p2))) as Hloop.
  { intros chunks before after payload p Hrec Hbad.
    rewrite read_loop_text, Hrec, process_messages_app.
    destruct (process_messages before (hush p)) as [p1|]; [|reflexivity].
    cbn [mbind option_bind process_messages].
    now rewrite process_message_malformed. }
  split; [exact process_message_malformed|].
  split; [exact Hloop|].
  intros chunks before after payload deltas deltas' p Htyped Hrec Hbad Hd Hd'.
  specialize (Hloop chunks before after payload (submitted p) Hrec Hbad).
  set (earlier := messages p ++ [userMessage_of p]).
  destruct (process_messages_deltas before deltas (hush (submitted p)) earlier
              {| role := assistant; content := [] |} Hd) as (q1 & Hq1 & Hm1).
  { subst earlier. simpl. now rewrite <- app_assoc. }
  destruct (process_messages_deltas after deltas' (emit Error_parsing_chunk q1) earlier
              (with_delta {| role := assistant; content := [] |} (concat deltas)) Hd')
    as (q2 & Hq2 & Hm2); [exact Hm1|].
  rewrite Hq1 in Hloop. cbn [mbind option_bind] in Hloop. rewrite Hq2 in Hloop.
  cbn [mbind option_bind] in Hloop.
  destruct (read_loop chunks [] (submitted p)) as [[tail p1]|] eqn:Hread;
    [|discriminate].
  assert (hush p1 = q2) as Hp1 by (cbn in Hloop; congruence).
  pose proof (read_loop_frame _ _ _ _ _ Hread) as (_ & _ & l & Heff & Hl).
  exists (setIsLoading false p1), l.
  split; [exact (handleSubmit_done _ _ _ _ Htyped Hread)|].
  split.
  { cbn [messages setIsLoading]. rewrite <- (hush_submitted_messages p1), Hp1, Hm2.
    subst earlier. unfold with_delta. cbn. now rewrite <- app_assoc. }
  split; [reflexivity|].
  split; [exact Heff|].
  split; [exact Hl|].
  apply process_messages_frame in Hq1 as (_ & _ & l1 & He1 & _).
  apply process_messages_frame in Hq2 as (_ & _ & l2 & He2 & _).
  assert (effects (hush p1) = effects (hush (submitted p)) ++ l1 ++ Error_parsing_chunk :: l2)
    as Hh.
  { rewrite Hp1, He2. cbn [effects emit]. rewrite He1, <- !app_assoc. reflexivity. }
  cbn [effects hush] in Hh. rewrite Heff, List.filter_app in Hh.
  apply app_inv_head in Hh.
  assert (In Error_parsing_chunk
            (List.filter (fun e => negb (is_Log_received e)) l)) as Hin.
  { rewrite Hh. apply in_or_app. right. now left. }
  now apply List.filter_In in Hin.
Qed.

Lemma loop_effects_send_nothing l :
  forallb loop_effect l = true -> List.filter is_Fetch_chat l = [].
Proof.
  induction l as [|e l IH]; [reflexivity|].
  cbn [forallb List.filter]. intros [He Hl]%andb_prop.
  rewrite (IH Hl). now destruct e.
Qed.

Lemma requests_sent_submitted p :
  requests_sent (submitted p) =
  requests_sent p ++ [Fetch_chat (messages p ++ [userMessage_of p])].
Proof. unfold requests_sent. cbn [effects submitted]. now rewrite List.filter_app. Qed.

(** The [catch] block when nothing else touches the messages while the
    request is pending. Whatever makes the request or the reading of the
    stream throw (the fetch rejects, the response is not 2xx, it has no
    body, a read rejects after some chunks), the content of the open
    assistant message becomes the apology, whatever had been appended to
    it; the loading flag is cleared; the only request sent is the one of
    the submission; and the page accepts a new submission. For a read
    that rejects, the deltas that arrived before are supposed to have
    been applied. *)
Lemma chat_failure_shows_apology :
  forall (response : ChatResponse) (p : Page),
    string_truthy (trim (input p)) = true ->
    fails response = true ->
    (forall chunks, response = Stream chunks ReadError ->
                    is_Some (read_loop chunks [] (submitted p))) ->
    exists p',
      handleSubmit response p = Some p' /\
      messages p' = messages p ++ [userMessage_of p;
                                   {| role := assistant; content := APOLOGY |}] /\
      input p' = [] /\
      isLoading p' = false /\
      requests_sent p' =
        requests_sent p ++ [Fetch_chat (messages p ++ [userMessage_of p])] /\
      (forall text, string_truthy (trim text) = true ->
         exists p'', handleSubmit (Stream [] Done) (setInput text p') = Some p'' /\
                     messages p'' = messages p' ++ [ {| role := user; content := text |};
                                                     {| role := assistant; content := [] |} ]).
Proof.
  intros response p Htyped Hfails Hloop.
  set (earlier := messages p ++ [userMessage_of p]).
  assert (forall p1 l content',
            messages p1 = earlier ++ [ {| role := assistant; content := content' |} ] ->
            input p1 = [] -> effects p1 = effects (submitted p) ++ l ->
            forallb loop_effect l = true ->
            exists q, on_error p1 = Some q /\
              messages q = earlier ++ [ {| role := assistant; content := APOLOGY |} ] /\
              input q = [] /\
              requests_sent q = requests_sent p ++ [Fetch_chat earlier]) as Hcatch.
  { intros p1 l content' Hm Hi He Hl. rewrite (on_error_open _ _ _ Hm).
    eexists. split; [reflexivity|]. cbn [messages input].
    repeat split; [exact Hi|].
    unfold requests_sent. cbn [effects]. rewrite He, !List.filter_app.
    rewrite (loop_effects_send_nothing l Hl). cbn [List.filter is_Fetch_chat].
    rewrite !app_nil_r. apply requests_sent_submitted. }
  assert (exists q, (match response with
                     | FetchRejected | NotOk _ | NoBody => on_error (submitted p)
                     | Stream chunks e =>
                         '(_, p1) ← read_loop chunks [] (submitted p);
                         match e with Done => Some p1 | ReadError => on_error p1 end
                     end) = Some q /\
              messages q = earlier ++ [ {| role := assistant; content := APOLOGY |} ] /\
              input q = [] /\
              requests_sent q = requests_sent p ++ [Fetch_chat earlier]) as (q & Hq & Hmq & Hiq & Hrq).
  { assert (messages (submitted p) = earlier ++ [ {| role := assistant; content := [] |} ])
      as Hsub by (subst earlier; cbn; now rewrite <- app_assoc).
    destruct response as [| errorData | | chunks [|]]; try discriminate.
    1-3: apply (Hcatch (submitted p) [] []);
           [exact Hsub | reflexivity | now rewrite app_nil_r | reflexivity].
    destruct (Hloop chunks eq_refl) as [[tail p1] Hread]. rewrite Hread.
    cbn [mbind option_bind].
    destruct (read_loop_keeps_open _ _ _ _ _ _ _ Hread Hsub) as [content' Hm1].
    destruct (read_loop_frame _ _ _ _ _ Hread) as (Hi1 & _ & l & He1 & Hl1).
    now apply (Hcatch p1 l content'). }
  rewrite handleSubmit_submitted, Hq by assumption. cbn [mbind option_bind].
  exists (setIsLoading false q). split; [reflexivity|].
  cbn [messages input isLoading setIsLoading].
  split; [subst earlier; rewrite Hmq; now rewrite <- app_assoc|].
  split; [exact Hiq|]. split; [reflexivity|].
  split; [exact Hrq|].
  intros text Htext.
  rewrite handleSubmit_submitted by exact Htext.
  cbn [read_loop mbind option_bind]. eexists. split; reflexivity.
Qed.

(** C9. The deltas of a stream of well-formed data records are appended
    to the open message in the order of the records: each updater reads
    the list which the one before returned, so after the loop the content
    is the content at the start followed by every delta, in order; as the
    placeholder starts empty, the answer of a submission is the
    concatenation of the deltas. *)
Theorem deltas_appended_in_order :
  (forall (records deltas : list js_string) (p : Page)
          (earlier : list Message) (open : Message),
     mapM record_delta records = Some deltas ->
     messages p = earlier ++ [open] ->
     exists p', process_messages records p = Some p' /\
       messages p' = earlier ++ [ {| role := role open;
                                     content := content open ++ concat deltas |} ]) /\
  (forall (chunks : list (list byte)) (deltas : list js_string) (p : Page)
          (earlier : list Message) (open : Message),
     mapM record_delta (complete_records (decoded_text chunks)) = Some deltas ->
     messages p = earlier ++ [open] ->
     exists p', read_loop chunks [] p = Some (pending_tail (decoded_text chunks), p') /\
       messages p' = earlier ++ [ {| role := role open;
                                     content := content open ++ concat deltas |} ]) /\
  (forall (chunks : list (list byte)) (deltas : list js_string) (p : Page),
     string_truthy (trim (input p)) = true ->
     mapM record_delta (complete_records (decoded_text chunks)) = Some deltas ->
     exists p', handleSubmit (Stream chunks Done) p = Some p' /\
       messages p' = messages p ++ [ {| role := user; content := input p |};
                                     {| role := assistant; content := concat deltas |} ]).
Proof.
  split; [exact process_messages_deltas|].
  split.
  - intros chunks deltas p earlier open Hd Hm.
    destruct (process_messages_deltas _ deltas (hush p) earlier open Hd Hm)
      as (q & Hq & Hmq).
    destruct (read_loop_result _ _ _ Hq) as (p' & Hloop & Hp').
    exists p'. split; [exact Hloop|].
    now rewrite <- (hush_submitted_messages p'), Hp'.
  - intros chunks deltas p Htyped Hd.
    destruct (handleSubmit_deltas chunks deltas p Htyped Hd) as (p' & Hs & Hm & _).
    eauto.
Qed.

(** C10. With an input that is empty or made of white space only,
    [handleSubmit] returns at once: the messages, the input and the
    loading flag are as they were, and the only effect is the
    [preventDefault] of the event; no request is sent. *)
Theorem blank_input_is_ignored :
  forall (response : ChatResponse) (p : Page),
    forallb is_white_space (input p) = true ->
    exists p',
      handleSubmit response p = Some p' /\
      messages p' = messages p /\
      input p' = input p /\
      isLoading p' = isLoading p /\
      effects p' = effects p ++ [PreventDefault] /\
      requests_sent p' = requests_sent p.
Proof.
  intros response p Hblank. exists (emit PreventDefault p).
  unfold handleSubmit. cbn [input emit]. rewrite (trim_blank _ Hblank).
  repeat split. unfold requests_sent. cbn [effects emit].
  rewrite List.filter_app. cbn. now rewrite app_nil_r.
Qed.

End AssemblerClaims.

(** ** The poller *)

Section PollerLemmas.
Import Poller.
Context `{NumberOps}.

Local Open Scope Z_scope.

Lemma timers_tracked_initial : timers_tracked initial.
Proof. intros id [d Hd]. cbn in Hd. now rewrite lookup_empty in Hd. Qed.

(** Clearing the timer of the ref leaves no timer pending. *)
Lemma clear_pending_timers p :
  timers_tracked p -> timers (clear_pending p) = ∅.
Proof.
  intros Hp. apply map_empty. intros i. unfold clear_pending.
  destruct (checkTimeoutRef p) as [id|] eqn:Href; cbn [timers].
  - destruct (decide (i = id)) as [->|Hne]; [apply lookup_delete_eq|].
    rewrite lookup_delete_ne by congruence.
    destruct (timers p !! i) as [d|] eqn:Hi; [|reflexivity].
    assert (Some id = Some i) as [= ->] by (rewrite <- Href; apply Hp; eauto).
    congruence.
  - destruct (timers p !! i) as [d|] eqn:Hi; [|reflexivity].
    assert (None = Some i) by (rewrite <- Href; apply Hp; eauto). discriminate.
Qed.

(** Clearing the timer touches neither the flag nor the requests. *)
Lemma clear_pending_fields p :
  modelStatus (clear_pending p) = modelStatus p /\
  next_timer (clear_pending p) = next_timer p /\
  in_flight (clear_pending p) = in_flight p /\
  requests (clear_pending p) = requests p.
Proof. unfold clear_pending. now destruct (checkTimeoutRef p). Qed.

Lemma clear_pending_tracked p : timers_tracked p -> timers_tracked (clear_pending p).
Proof.
  intros Hp id [d Hd]. rewrite (clear_pending_timers p Hp) in Hd.
  now rewrite lookup_empty in Hd.
Qed.

(** Scheduling a retry leaves exactly the new timer pending. *)
Lemma schedule_retry_timers now p :
  timers_tracked p ->
  timers (schedule_retry now p) = {[ next_timer p := now + RETRY_DELAY ]}
  /\ checkTimeoutRef (schedule_retry now p) = Some (next_timer p)
  /\ modelStatus (schedule_retry now p) = modelStatus p
  /\ requests (schedule_retry now p) = requests p.
Proof.
  intros Hp. unfold schedule_retry, set_retry. cbn [timers checkTimeoutRef modelStatus requests].
  rewrite (clear_pending_timers p Hp), insert_empty.
  unfold clear_pending. destruct (checkTimeoutRef p); auto.
Qed.

Lemma schedule_retry_tracked now p :
  timers_tracked p -> timers_tracked (schedule_retry now p).
Proof.
  intros Hp. destruct (schedule_retry_timers now p Hp) as (Ht & Hr & _).
  intros id [d Hd]. rewrite Ht in Hd. rewrite Hr.
  apply lookup_singleton_Some in Hd as [<- _]. reflexivity.
Qed.

Lemma setModelStatus_tracked s p : timers_tracked p -> timers_tracked (setModelStatus s p).
Proof. exact id. Qed.

Lemma checkModelStatus_start_tracked last now p :
  timers_tracked p -> timers_tracked (checkModelStatus_start last now p).
Proof.
  unfold checkModelStatus_start.
  destruct ((now - last <? 60000) && negb (last =? 0)); exact id.
Qed.

Lemma checkModelStatus_settle_tracked response now p :
  timers_tracked p -> timers_tracked (checkModelStatus_settle response now p).
Proof.
  intros Hp. unfold checkModelStatus_settle, on_failure.
  destruct response as [|[|] [data|]];
    try (apply schedule_retry_tracked, setModelStatus_tracked, Hp).
  destruct (get_property data (lit "status")) as [status|];
    [|apply schedule_retry_tracked, setModelStatus_tracked, Hp].
  destruct (property_truthy status).
  - apply clear_pending_tracked, setModelStatus_tracked, Hp.
  - apply schedule_retry_tracked, Hp.
Qed.

Lemma step_tracked p e : timers_tracked p -> timers_tracked (step p e).
Proof.
  intros Hp. destruct e as [now | id now | response now |]; cbn [step].
  - apply checkModelStatus_start_tracked, Hp.
  - destruct (timers p !! id) as [due|] eqn:Hid; [|exact Hp].
    destruct (due <=? now); [|exact Hp].
    apply checkModelStatus_start_tracked.
    intros i [d Hd]. cbn [timers checkTimeoutRef] in *.
    apply lookup_delete_Some in Hd as [_ Hd]. apply Hp. eauto.
  - destruct (in_flight p); [exact Hp|].
    apply checkModelStatus_settle_tracked. exact Hp.
  - apply clear_pending_tracked, Hp.
Qed.

Lemma foldl_step_tracked events : forall p,
  timers_tracked p -> timers_tracked (foldl step p events).
Proof.
  induction events as [|e events IH]; intros p Hp; [exact Hp|].
  cbn [foldl]. apply IH, step_tracked, Hp.
Qed.

Lemma run_tracked events : timers_tracked (run events).
Proof. apply foldl_step_tracked, timers_tracked_initial. Qed.

Lemma timers_tracked_size p : timers_tracked p -> (size (timers p) <= 1)%nat.
Proof.
  intros Hp. pose proof (clear_pending_timers p Hp) as Hclear.
  unfold clear_pending in Hclear.
  destruct (checkTimeoutRef p) as [id|]; cbn [timers] in Hclear.
  - destruct (timers p !! id) as [d|] eqn:Hid.
    + rewrite <- (insert_delete_id (timers p) id d Hid), Hclear, insert_empty.
      now rewrite map_size_singleton.
    + rewrite delete_id in Hclear by assumption. rewrite Hclear, map_size_empty. lia.
  - rewrite Hclear, map_size_empty. lia.
Qed.

(** In the component, the guard of [checkModelStatus] never holds: the
    closure reads the [lastCheckTime] of the first render, which is 0. *)
Lemma checkModelStatus_sends now p :
  checkModelStatus now p =
  {| modelStatus := modelStatus p; lastCheckTime := now;
     checkTimeoutRef := checkTimeoutRef p; timers := timers p;
     next_timer := next_timer p; in_flight := S (in_flight p);
     requests := requests p ++ [now] |}.
Proof.
  unfold checkModelStatus, checkModelStatus_start, closure_lastCheckTime.
  cbn [lastCheckTime initial]. cbn [Z.eqb negb]. now rewrite andb_false_r.
Qed.

(** The guard as it is written: a call that reads a time of last check
    which is not 0 and less than 60 seconds old does nothing. *)
Lemma checkModelStatus_start_recent last now p :
  last <> 0 -> now - last < 60000 -> checkModelStatus_start last now p = p.
Proof.
  intros Hlast Hrecent. unfold checkModelStatus_start.
  destruct (Z.ltb_spec (now - last) 60000); [|lia].
  destruct (Z.eqb_spec last 0); [contradiction | reflexivity].
Qed.

End PollerLemmas.

(** ** Properties of the poller *)

Section PollerClaims.
Import Poller.
Context `{NumberOps}.

Local Open Scope Z_scope.

(** C4 (a defect of the code). The claim asks that a call of the status
    check less than 60 seconds after the last check that was performed
    does nothing. The effect runs at 1000 ms, is cleaned up and runs
    again at 2000 ms; the first run has recorded its time in the state,
    yet the second sends a request as well: the closure compares with
    the [lastCheckTime] of the first render, which stays 0, so that in
    the component every call sends a request. *)
Theorem guard_never_holds_in_component :
  lastCheckTime (run [EffectRuns 1000]) = 1000 /\
  requests (run [EffectRuns 1000; Cleanup; EffectRuns 2000]) = [1000; 2000] /\
  (forall (events : list Event) (now : Z),
     requests (step (run events) (EffectRuns now)) = requests (run events) ++ [now]).
Proof.
  split; [reflexivity|]. split; [reflexivity|].
  intros events now. cbn [step]. now rewrite checkModelStatus_sends.
Qed.

(** C5, as amended. An answer with a 2xx status and a JSON body, in any
    state that the component reaches with a request in flight. When
    [status] is truthy the flag becomes [ready], no timer is left pending
    and none is set. When it is falsy the flag is left as it was: it
    stays [loading] if it was [loading], and it stays [error] after a
    check that failed, as no path of the poller sets [loading]. Exactly
    one timer is then pending, due 60 seconds after the answer, and when
    it fires a request is sent. In both cases the answer itself sends no
    request and settles one of those in flight. *)
Theorem status_answer_ready_or_retry :
  forall (events : list Event) (data : json) (status : property) (now : Z),
    in_flight (run events) <> 0%nat ->
    get_property data (lit "status") = Some status ->
    if property_truthy status then
      modelStatus (step (run events) (Answered (Responded true (Some data)) now)) = ready /\
      timers (step (run events) (Answered (Responded true (Some data)) now)) = ∅ /\
      next_timer (step (run events) (Answered (Responded true (Some data)) now))
        = next_timer (run events) /\
      requests (step (run events) (Answered (Responded true (Some data)) now))
        = requests (run events) /\
      S (in_flight (step (run events) (Answered (Responded true (Some data)) now)))
        = in_flight (run events)
    else
      modelStatus (step (run events) (Answered (Responded true (Some data)) now))
        = modelStatus (run events) /\
      timers (step (run events) (Answered (Responded true (Some data)) now))
        = {[ next_timer (run events) := now + 60000 ]} /\
      size (timers (step (run events) (Answered (Responded true (Some data)) now))) = 1%nat /\
      requests (step (run events) (Answered (Responded true (Some data)) now))
        = requests (run events) /\
      S (in_flight (step (run events) (Answered (Responded true (Some data)) now)))
        = in_flight (run events) /\
      (forall later, now + 60000 <= later ->
         requests (step (step (run events) (Answered (Responded true (Some data)) now))
                        (TimerFires (next_timer (run events)) later))
         = requests (run events) ++ [later]).
Proof.
  intros events data status now Hflight Hstatus.
  pose proof (run_tracked events) as Htracked.
  cbn [step]. destruct (in_flight (run events)) as [|n]; [done|].
  set (p := {| modelStatus := modelStatus (run events);
               lastCheckTime := lastCheckTime (run events);
               checkTimeoutRef := checkTimeoutRef (run events);
               timers := timers (run events);
               next_timer := next_timer (run events);
               in_flight := n; requests := requests (run events) |}).
  assert (timers_tracked p) as Hp by exact Htracked.
  unfold checkModelStatus_settle. rewrite Hstatus.
  destruct (property_truthy status).
  - destruct (clear_pending_fields (setModelStatus ready p)) as (Hm & Hn & Hi & Hr).
    rewrite Hm, Hn, Hi, Hr.
    repeat split. now apply clear_pending_timers.
  - destruct (schedule_retry_timers now p Hp) as (Ht & _ & Hs & Hr).
    assert (in_flight (schedule_retry now p) = n) as Hi.
    { unfold schedule_retry, set_retry. cbn [in_flight].
      apply (clear_pending_fields p). }
    rewrite Ht, Hs, Hr, Hi, map_size_singleton. repeat split.
    intros later Hlater. cbn [next_timer p].
    rewrite lookup_singleton_eq. unfold RETRY_DELAY.
    destruct (Z.leb_spec (now + 60000) later); [|lia].
    rewrite checkModelStatus_sends. reflexivity.
Qed.

(** C6. An answer that ends in the [catch] block (the request failed,
    the status was not 2xx, the body was not JSON), in any state that the
    component reaches with a request in flight: the flag becomes [error]
    and exactly one timer is pending, due 60 seconds after the answer, as
    after an answer that says not ready. When that timer fires, a new
    request is sent: the failure does not end the polling. *)
Theorem status_failure_sets_error_and_retries :
  forall (events : list Event) (response : StatusResponse) (now : Z),
    in_flight (run events) <> 0%nat ->
    is_failure response = true ->
    modelStatus (step (run events) (Answered response now)) = error /\
    timers (step (run events) (Answered response now))
      = {[ next_timer (run events) := now + 60000 ]} /\
    size (timers (step (run events) (Answered response now))) = 1%nat /\
    (forall later, now + 60000 <= later ->
       requests (step (step (run events) (Answered response now))
                      (TimerFires (next_timer (run events)) later))
       = requests (run events) ++ [later]).
Proof.
  intros events response now Hflight Hfail.
  pose proof (run_tracked events) as Htracked.
  cbn [step]. destruct (in_flight (run events)) as [|n]; [done|].
  set (p := {| modelStatus := modelStatus (run events);
               lastCheckTime := lastCheckTime (run events);
               checkTimeoutRef := checkTimeoutRef (run events);
               timers := timers (run events);
               next_timer := next_timer (run events);
               in_flight := n; requests := requests (run events) |}).
  assert (timers_tracked (setModelStatus error p)) as Hp by exact Htracked.
  assert (checkModelStatus_settle response now p = on_failure now p) as ->.
  { unfold checkModelStatus_settle. unfold is_failure in Hfail.
    destruct response as [|[|] [data|]]; try reflexivity.
    now destruct (get_property data (lit "status")). }
  unfold on_failure.
  destruct (schedule_retry_timers now _ Hp) as (Ht & _ & Hs & Hr).
  rewrite Ht, Hs, map_size_singleton. repeat split.
  intros later Hlater. cbn [next_timer setModelStatus p] in *.
  rewrite lookup_singleton_eq. unfold RETRY_DELAY.
  destruct (Z.leb_spec (now + 60000) later); [|lia].
  rewrite checkModelStatus_sends. cbn [requests]. now rewrite Hr.
Qed.

(** C7. In every state that the component reaches, whatever the order of
    effect runs, timers, answers and cleanups, at most one timer is
    pending, and it is the one whose handle the ref holds; a retry is
    scheduled by clearing the timer of the ref and then setting the new
    one. After a transport error and a retry that finds the model ready,
    no timer is pending. *)
Theorem at_most_one_pending_timer :
  forall (events : list Event),
    (size (timers (run events)) <= 1)%nat /\
    timers_tracked (run events) /\
    (forall (now : Z) (p : Poller),
       schedule_retry now p = set_retry now (clear_pending p) /\
       timers (schedule_retry now p)
         = <[ next_timer p := now + 60000 ]>
             (match checkTimeoutRef p with
              | Some id => delete id (timers p)
              | None => timers p
              end)) /\
    timers (run [EffectRuns 0; Answered FetchRejected 100]) = {[ 1%positive := 60100 ]} /\
    timers (run [EffectRuns 0; Answered FetchRejected 100; TimerFires 1 60100;
                 Answered (Responded true (Some (status_payload true))) 60200]) = ∅ /\
    modelStatus (run [EffectRuns 0; Answered FetchRejected 100; TimerFires 1 60100;
                      Answered (Responded true (Some (status_payload true))) 60200]) = ready.
Proof.
  intros events. split; [apply timers_tracked_size, run_tracked|].
  split; [apply run_tracked|].
  split.
  { intros now p. split; [reflexivity|].
    unfold schedule_retry, set_retry, clear_pending.
    now destruct (checkTimeoutRef p). }
  repeat split; reflexivity.
Qed.

End PollerClaims.

(** ** The properties at concrete inputs *)

Section Instances.
Import Chat Poller.

#[local] Existing Instance numerals_as_written.

Local Open Scope Z_scope.

Lemma malformed_record_is_skipped_witness :
  JSON_parse (ascii_text "{oops") = None /\
  exists p',
    handleSubmit (Stream [garbled_first; garbled_second] Done) (asking [] (lit "hi")) = Some p' /\
    messages p' = [ {| role := user; content := lit "hi" |};
                    {| role := assistant; content := lit "AB" |} ] /\
    In Error_parsing_chunk (effects p').
Proof.
  split; [reflexivity|].
  destruct (proj2 (proj2 malformed_record_is_skipped)
              [garbled_first; garbled_second]
              [ascii_text "data: {'content':'A'}"]
              [ascii_text "data: {'content':'B'}"]
              (ascii_text "{oops") [lit "A"] [lit "B"] (asking [] (lit "hi"))
              eq_refl eq_refl eq_refl eq_refl eq_refl)
    as (p' & l & Hs & Hm & _ & He & _ & Hin).
  exists p'. split; [exact Hs|]. split; [exact Hm|].
  rewrite He. apply in_or_app. now right.
Defined.

Lemma chat_failure_shows_apology_after_chunks :
  exists p',
    handleSubmit (Stream [hello_first; hello_second] ReadError) (asking [] (lit "hi")) = Some p' /\
    messages p' = [ {| role := user; content := lit "hi" |};
                    {| role := assistant; content := APOLOGY |} ] /\
    isLoading p' = false.
Proof.
  destruct (chat_failure_shows_apology
              (Stream [hello_first; hello_second] ReadError) (asking [] (lit "hi"))
              eq_refl eq_refl)
    as (p' & Hs & Hm & _ & Hl & _).
  - intros chunks [= <-]. eexists. reflexivity.
  - exists p'. split; [exact Hs|]. split; [exact Hm | exact Hl].
Defined.

Lemma deltas_appended_in_order_witness :
  exists p',
    handleSubmit (Stream [ordered_first; ordered_second] Done) (asking [] (lit "hi")) = Some p' /\
    messages p' = [ {| role := user; content := lit "hi" |};
                    {| role := assistant; content := lit "Hello" |} ].
Proof.
  exact (proj2 (proj2 deltas_appended_in_order)
           [ordered_first; ordered_second] [lit "Hel"; lit "lo"]
           (asking [] (lit "hi")) eq_refl eq_refl).
Defined.

Lemma blank_input_is_ignored_witness :
  exists p',
    handleSubmit Chat.FetchRejected (asking [] (lit "   ")) = Some p' /\
    messages p' = [] /\ input p' = lit "   " /\ isLoading p' = false /\
    effects p' = [PreventDefault] /\ requests_sent p' = [].
Proof.
  exact (blank_input_is_ignored Chat.FetchRejected (asking [] (lit "   ")) eq_refl).
Defined.

Lemma status_answer_ready_or_retry_witness :
  (modelStatus (step (run [EffectRuns 1000])
                  (Answered (Responded true (Some (status_payload false))) 1500)) = loading /\
   timers (step (run [EffectRuns 1000])
             (Answered (Responded true (Some (status_payload false))) 1500))
     = {[ 1%positive := 61500 ]} /\
   requests (step (run [EffectRuns 1000])
               (Answered (Responded true (Some (status_payload false))) 1500)) = [1000] /\
   requests (step (step (run [EffectRuns 1000])
                     (Answered (Responded true (Some (status_payload false))) 1500))
                  (TimerFires 1 61500)) = [1000; 61500]) /\
  (modelStatus (step (run [EffectRuns 1000])
                  (Answered (Responded true (Some (status_payload true))) 1500)) = ready /\
   timers (step (run [EffectRuns 1000])
             (Answered (Responded true (Some (status_payload true))) 1500)) = ∅ /\
   requests (step (run [EffectRuns 1000])
               (Answered (Responded true (Some (status_payload true))) 1500)) = [1000]) /\
  (modelStatus (step (run [EffectRuns 1000; Answered Poller.FetchRejected 1500;
                           TimerFires 1 61500])
                  (Answered (Responded true (Some (status_payload false))) 62000)) = error /\
   timers (step (run [EffectRuns 1000; Answered Poller.FetchRejected 1500;
                      TimerFires 1 61500])
             (Answered (Responded true (Some (status_payload false))) 62000))
     = {[ 2%positive := 122000 ]}).
Proof.
  assert (in_flight (run [EffectRuns 1000]) <> 0%nat) as Hflight by discriminate.
  assert (in_flight (run [EffectRuns 1000; Answered Poller.FetchRejected 1500;
                          TimerFires 1 61500]) <> 0%nat) as Hflight' by discriminate.
  split; [|split].
  - destruct (status_answer_ready_or_retry [EffectRuns 1000] (status_payload false)
                (Value (JBool false)) 1500 Hflight eq_refl) as (Hm & Ht & _ & Hr & _ & Hfire).
    split; [exact Hm|]. split; [exact Ht|]. split; [exact Hr|].
    apply (Hfire 61500). discriminate.
  - destruct (status_answer_ready_or_retry [EffectRuns 1000] (status_payload true)
                (Value (JBool true)) 1500 Hflight eq_refl) as (Hm & Ht & _ & Hr & _).
    split; [exact Hm|]. split; [exact Ht | exact Hr].
  - destruct (status_answer_ready_or_retry
                [EffectRuns 1000; Answered Poller.FetchRejected 1500; TimerFires 1 61500]
                (status_payload false) (Value (JBool false)) 62000 Hflight' eq_refl)
      as (Hm & Ht & _).
    split; [exact Hm | exact Ht].
Defined.

(** With C5 as the claim states it: the flag does not remain [loading]
    after every answer that says not ready. The first check fails, which
    sets the flag to [error]; the retry is answered with a 2xx status and
    [status: false], and the flag still shows [error]. *)
Lemma not_ready_answer_after_failure :
  in_flight (run [EffectRuns 1000; Answered Poller.FetchRejected 1500; TimerFires 1 61500])
    = 1%nat /\
  get_property (status_payload false) (lit "status") = Some (Value (JBool false)) /\
  property_truthy (Value (JBool false)) = false /\
  modelStatus (step (run [EffectRuns 1000; Answered Poller.FetchRejected 1500;
                          TimerFires 1 61500])
                 (Answered (Responded true (Some (status_payload false))) 62000)) = error /\
  left_loading
    (modelStatus (step (run [EffectRuns 1000; Answered Poller.FetchRejected 1500;
                             TimerFires 1 61500])
                    (Answered (Responded true (Some (status_payload false))) 62000))) = true /\
  timers (step (run [EffectRuns 1000; Answered Poller.FetchRejected 1500;
                     TimerFires 1 61500])
            (Answered (Responded true (Some (status_payload false))) 62000))
    = {[ 2%positive := 122000 ]}.
Proof. repeat split; reflexivity. Qed.

Lemma status_failure_sets_error_and_retries_witness :
  modelStatus (step (run [EffectRuns 1000]) (Answered Poller.FetchRejected 1500)) = error /\
  timers (step (run [EffectRuns 1000]) (Answered Poller.FetchRejected 1500))
    = {[ 1%positive := 61500 ]} /\
  requests (step (step (run [EffectRuns 1000]) (Answered Poller.FetchRejected 1500))
                 (TimerFires 1 61500)) = [1000; 61500].
Proof.
  assert (in_flight (run [EffectRuns 1000]) <> 0%nat) as Hflight by discriminate.
  destruct (status_failure_sets_error_and_retries [EffectRuns 1000] Poller.FetchRejected 1500
              Hflight eq_refl) as (Hm & Ht & _ & Hretry).
  split; [exact Hm|]. split; [exact Ht|].
  apply (Hretry 61500). discriminate.
Defined.

End Instances.

(** ** The snake game *)

Section SnakeLemmas.
Import Snake.

Local Open Scope Z_scope.

Lemma removelast_cons_nonempty {A} (a : A) (l : list A) :
  l <> [] -> removelast (a :: l) = a :: removelast l.
Proof. now destruct l. Qed.

Lemma In_removelast {A} (a : A) (l : list A) : In a (removelast l) -> In a l.
Proof.
  induction l as [|b l IH]; [done|].
  destruct l as [|c l]; [done|].
  rewrite removelast_cons_nonempty by discriminate.
  intros [->|Hin]; [now left | right; auto].
Qed.

Lemma NoDup_removelast {A} (l : list A) : List.NoDup l -> List.NoDup (removelast l).
Proof.
  induction l as [|b l IH]; [done|].
  destruct l as [|c l]; [constructor|].
  rewrite removelast_cons_nonempty by discriminate.
  intros Hnd. inversion Hnd as [|? ? Hb Hl]; subst.
  constructor; [|auto]. intros Hin. apply Hb. now apply In_removelast.
Qed.

Lemma length_removelast_cons {A} (a : A) (l : list A) :
  length (removelast (a :: l)) = length l.
Proof.
  revert a. induction l as [|b l IH]; intros a; [reflexivity|].
  rewrite removelast_cons_nonempty by discriminate. cbn [length]. now rewrite IH.
Qed.

Lemma forallb_removelast {A} (f : A -> bool) (l : list A) :
  forallb f l = true -> forallb f (removelast l) = true.
Proof.
  intros Hl. apply forallb_forall. intros a Ha.
  apply In_removelast in Ha. revert a Ha. now apply forallb_forall.
Qed.

Lemma In_take {A} (a : A) n (l : list A) : In a (take n l) -> In a l.
Proof.
  intros Hin. rewrite <- (firstn_skipn n l). apply in_or_app. now left.
Qed.

Lemma same_cell_eq a b : same_cell a b = true <-> a = b.
Proof.
  unfold same_cell. destruct a as [xa ya], b as [xb yb]. cbn [x y]. split.
  - intros [Hx Hy]%andb_prop. apply Z.eqb_eq in Hx, Hy. now subst.
  - intros [= -> ->]. now rewrite !Z.eqb_refl.
Qed.

(** A head that [checkCollision] accepts is inside the grid and is none
    of the segments, the first apart, of the snake the function sees. *)
Lemma checkCollision_false seen head :
  checkCollision seen head = false ->
  in_grid head = true /\ ~ In head (drop 1 seen).
Proof.
  unfold checkCollision, in_grid, GRID_SIZE.
  destruct (Z.ltb_spec (x head) 0), (Z.geb_spec (x head) 20),
           (Z.ltb_spec (y head) 0), (Z.geb_spec (y head) 20);
    cbn [orb]; try discriminate.
  intros Hex. split.
  - repeat (apply andb_true_intro; split); (apply Z.leb_le || apply Z.ltb_lt); lia.
  - intros Hin. assert (existsb (same_cell head) (drop 1 seen) = true) as Ht.
    { apply existsb_exists. exists head. split; [exact Hin | now apply same_cell_eq]. }
    congruence.
Qed.

Lemma checkCollision_hit seen head :
  In head (drop 1 seen) -> checkCollision seen head = true.
Proof.
  intros Hin. unfold checkCollision.
  destruct (_ || _); [reflexivity|].
  apply existsb_exists. exists head. split; [exact Hin | now apply same_cell_eq].
Qed.

(** [render] changes nothing but the snake that [moveSnake] sees. *)
Lemma render_fields before food_set after :
  snake (render before food_set after) = snake after /\
  food (render before food_set after) = food after /\
  direction (render before food_set after) = direction after /\
  score (render before food_set after) = score after /\
  gameOver (render before food_set after) = gameOver after /\
  isPlaying (render before food_set after) = isPlaying after /\
  status (render before food_set after) = status after.
Proof. repeat split. Qed.

Lemma direction_eqb_eq a b : direction_eqb a b = true <-> a = b.
Proof. destruct a, b; cbn; split; (done || discriminate). Qed.

(** After a render, [moveSnake] sees the current snake, or the direction
    is the one of the render before and it sees what it saw. *)
Lemma render_rendered before food_set after :
  rendered_snake (render before food_set after) = snake after \/
  (direction after = direction before /\ food_set = false /\
   rendered_snake (render before food_set after) = rendered_snake before).
Proof.
  unfold render. cbn [rendered_snake].
  destruct (direction_eqb (direction before) (direction after)) eqn:Hd;
    cbn [negb orb]; [|now left].
  apply direction_eqb_eq in Hd.
  destruct food_set; cbn [orb]; [now left|].
  destruct (_ || _); [now left | right; auto].
Qed.

Lemma follows_fresh d current : follows d current current.
Proof.
  destruct current as [|h rest]; [reflexivity|].
  exists 0%nat. cbn [straight app firstn]. now rewrite firstn_all.
Qed.

Lemma iter_advance d (k : nat) h :
  x (Nat.iter k (advance d) h) = x h + Z.of_nat k * dx d /\
  y (Nat.iter k (advance d) h) = y h + Z.of_nat k * dy d.
Proof.
  induction k as [|k [IHx IHy]]; [cbn; lia|].
  rewrite Nat2Z.inj_succ, Nat.iter_succ.
  destruct d; cbn [advance x y dx dy] in *; rewrite ?IHx, ?IHy; lia.
Qed.

Lemma iter_advance_inj d (i j : nat) h :
  Nat.iter i (advance d) h = Nat.iter j (advance d) h -> i = j.
Proof.
  intros Heq.
  destruct (iter_advance d i h) as [Hxi Hyi], (iter_advance d j h) as [Hxj Hyj].
  rewrite Heq in Hxi, Hyi. destruct d; cbn [dx dy] in *; lia.
Qed.

Lemma In_straight d h k p :
  In p (straight d h k) -> exists j, (1 <= j <= k)%nat /\ p = Nat.iter j (advance d) h.
Proof.
  induction k as [|k IH]; [done|].
  cbn [straight]. intros [<-|Hin].
  - exists (S k). split; [lia | reflexivity].
  - destruct (IH Hin) as (j & Hj & ->). exists j. split; [lia | reflexivity].
Qed.

(** The head of a snake that follows the rendered one, and the cells it
    can occupy. *)
Lemma follows_head d h rest k first body :
  first :: body = take (S (length rest)) (straight d h k ++ h :: rest) ->
  first = Nat.iter k (advance d) h.
Proof. destruct k; cbn; now intros [= -> _]. Qed.

Lemma follows_cells d h rest k p :
  In p (take (S (length rest)) (straight d h k ++ h :: rest)) ->
  (exists j, (j <= k)%nat /\ p = Nat.iter j (advance d) h) \/ In p rest.
Proof.
  intros Hin%In_take. apply in_app_or in Hin as [Hin|[<-|Hin]].
  - left. destruct (In_straight _ _ _ _ Hin) as (j & Hj & ->). exists j. split; [lia|done].
  - left. exists 0%nat. split; [lia | reflexivity].
  - now right.
Qed.

End SnakeLemmas.

Section SnakeInvariants.
Import Snake.

Local Open Scope Z_scope.

Lemma status_eqb_refl s : status_eqb s s = true.
Proof. now destruct s. Qed.

Lemma direction_eqb_refl d : direction_eqb d d = true.
Proof. now destruct d. Qed.

(** A render after no change is no change. *)
Lemma render_same g : render g false g = g.
Proof.
  unfold render.
  rewrite direction_eqb_refl, status_eqb_refl, !Bool.eqb_reflx. now destruct g.
Qed.

Lemma run_snoc events e : run (events ++ [e]) = step (run events) e.
Proof. unfold run. now rewrite foldl_app. Qed.

(** The cases of a tick. *)
Ltac tick_cases g front body Hrun Hs Hc Hf :=
  cbn [step]; unfold moveSnake;
  destruct (gameOver g || status_eqb (status g) Poller.ready || negb (isPlaying g))
    eqn:Hrun;
    [ rewrite render_same
    | destruct (snake g) as [|front body] eqn:Hs;
      [ rewrite render_same
      | destruct (checkCollision (rendered_snake g) (advance (direction g) front)) eqn:Hc;
        [ | destruct ((x (advance (direction g) front) =? x (food g))
                      && (y (advance (direction g) front) =? y (food g))) eqn:Hf ] ] ].

Lemma step_in_grid g e :
  forallb in_grid (snake g) = true -> forallb in_grid (snake (step g e)) = true.
Proof.
  intros Hg. destruct e as [newFood | key | newFood | s].
  - tick_cases g front body Hrun Hs Hc Hf; rewrite ?Hs; try exact Hg.
    + apply checkCollision_false in Hc as [Hin _].
      cbn [render snake]. cbn [forallb]. now rewrite Hin.
    + apply checkCollision_false in Hc as [Hin _].
      cbn [render snake]. apply forallb_removelast.
      cbn [forallb]. now rewrite Hin.
  - exact Hg.
  - reflexivity.
  - exact Hg.
Qed.

Lemma step_food_in_grid g e :
  drawn_in_grid e = true -> in_grid (food g) = true -> in_grid (food (step g e)) = true.
Proof.
  intros He Hg. destruct e as [newFood | key | newFood | s]; cbn [drawn_in_grid] in He.
  - tick_cases g front body Hrun Hs Hc Hf; try exact Hg; cbn [render food]; assumption.
  - exact Hg.
  - exact He.
  - exact Hg.
Qed.

(** One more straight step keeps the snake behind the rendered one. *)
Lemma follows_advance d rendered front body :
  follows d rendered (front :: body) ->
  follows d rendered (advance d front :: removelast (front :: body)).
Proof.
  unfold follows. destruct rendered as [|h rest]; [discriminate|].
  intros [k Hk]. exists (S k).
  pose proof (follows_head _ _ _ _ _ _ Hk) as ->.
  rewrite Hk. cbn [straight app firstn]. rewrite Nat.iter_succ. f_equal.
  apply removelast_firstn. rewrite length_app. cbn [length]. lia.
Qed.

(** A head that [checkCollision] accepts is on no segment of the snake,
    although the test looks at the rendered snake. *)
Lemma head_free d rendered front body :
  follows d rendered (front :: body) ->
  checkCollision rendered (advance d front) = false ->
  ~ In (advance d front) (front :: body).
Proof.
  unfold follows. destruct rendered as [|h rest]; [discriminate|].
  intros [k Hk] Hc Hin.
  pose proof (follows_head _ _ _ _ _ _ Hk) as ->.
  apply checkCollision_false in Hc as [_ Hrest]. cbn [drop] in Hrest.
  rewrite Hk in Hin. rewrite <- Nat.iter_succ in Hin, Hrest.
  apply follows_cells in Hin as [(j & Hj & Heq)|Hin]; [|contradiction].
  apply iter_advance_inj in Heq. lia.
Qed.

Lemma render_sound before food_set after :
  List.NoDup (snake after) ->
  (food_set = false -> direction after = direction before ->
   follows (direction before) (rendered_snake before) (snake after)) ->
  sound (render before food_set after).
Proof.
  intros Hnd Hf. split; [exact Hnd|].
  change (direction (render before food_set after)) with (direction after).
  change (snake (render before food_set after)) with (snake after).
  destruct (render_rendered before food_set after) as [->|(Hd & Hfs & ->)].
  - apply follows_fresh.
  - rewrite Hd. now apply Hf.
Qed.

Lemma step_sound g e : sound g -> sound (step g e).
Proof.
  intros [Hnd Hfol]. destruct e as [newFood | key | newFood | s].
  - tick_cases g front body Hrun Hs Hc Hf; try (split; rewrite ?Hs; assumption).
    + apply render_sound; cbn [snake direction]; [exact Hnd | intros _ _; exact Hfol].
    + apply render_sound; [|discriminate]. cbn [snake].
      constructor; [|exact Hnd].
      apply (head_free _ _ _ _ Hfol Hc).
    + apply render_sound; cbn [snake direction].
      * rewrite removelast_cons_nonempty by discriminate.
        constructor; [|now apply NoDup_removelast].
        intros Hin%In_removelast. now apply (head_free _ _ _ _ Hfol Hc).
      * intros _ _. rewrite removelast_cons_nonempty by discriminate.
        now apply follows_advance.
  - apply render_sound; cbn [handleKeyPress snake direction]; [exact Hnd|].
    intros _ _. exact Hfol.
  - apply render_sound; [|discriminate]. cbn [startGame snake].
    unfold INITIAL_SNAKE. repeat constructor; cbn; intuition discriminate.
  - apply render_sound; cbn [setStatus snake direction]; [exact Hnd|].
    intros _ _. exact Hfol.
Qed.

Lemma run_sound events : sound (run events).
Proof.
  induction events as [|e events IH] using rev_ind.
  - split; [|apply follows_fresh].
    cbn. unfold INITIAL_SNAKE. repeat constructor; cbn; intuition discriminate.
  - rewrite run_snoc. now apply step_sound.
Qed.

End SnakeInvariants.

(** ** Properties of the snake game *)

Section SnakeProperties.
Import Snake.

Local Open Scope Z_scope.

Lemma running_false g :
  running g = false ->
  gameOver g || status_eqb (status g) Poller.ready || negb (isPlaying g) = true.
Proof.
  unfold running.
  now destruct (gameOver g), (status_eqb (status g) Poller.ready), (isPlaying g).
Qed.

Lemma running_true g :
  running g = true ->
  gameOver g || status_eqb (status g) Poller.ready || negb (isPlaying g) = false.
Proof.
  unfold running.
  now destruct (gameOver g), (status_eqb (status g) Poller.ready), (isPlaying g).
Qed.

Lemma run_in_grid events : forallb in_grid (snake (run events)) = true.
Proof.
  induction events as [|e events IH] using rev_ind; [reflexivity|].
  rewrite run_snoc. now apply step_in_grid.
Qed.

(** X10. In every state of the game every segment of the snake is a
    cell of the 20 by 20 grid, whatever food is drawn; the food is one
    as well when every food drawn is. *)
Theorem snake_stays_in_grid :
  forall (events : list Event),
    forallb in_grid (snake (run events)) = true /\
    (forallb drawn_in_grid events = true -> in_grid (food (run events)) = true).
Proof.
  intros events. split; [apply run_in_grid|].
  induction events as [|e events IH] using rev_ind; [reflexivity|].
  rewrite forallb_app, run_snoc. cbn [forallb].
  intros [Hevents [He _]%andb_prop]%andb_prop.
  apply step_food_in_grid; auto.
Qed.

(** X11. In every state of the game no cell holds two segments of the
    snake. The collision test looks at the snake of the render in which
    [moveSnake] was created, not at the current one, but between two such
    renders the snake runs straight, and every segment it can run into is
    still one of the rendered snake. *)
Theorem snake_never_overlaps :
  forall (events : list Event), List.NoDup (snake (run events)).
Proof. intros events. apply run_sound. Qed.

(** X12. One key press never reverses the direction. Two key presses
    before the next tick do: the snake then steps back onto its second
    segment (or out of the grid), and the tick ends the game without
    moving the snake. *)
Theorem quick_reversal_ends_game :
  (forall (key : Key) (d : Direction), direction_eqb (turn key d) (opposite d) = false) /\
  (forall (g : Game) (key1 key2 : Key) (newFood front neck : Position) (body : list Position),
     running g = true ->
     snake g = front :: neck :: body ->
     advance (opposite (direction g)) front = neck ->
     turn key2 (turn key1 (direction g)) = opposite (direction g) ->
     gameOver (foldl step g [KeyDown key1; KeyDown key2; Tick newFood]) = true /\
     snake (foldl step g [KeyDown key1; KeyDown key2; Tick newFood]) = snake g /\
     score (foldl step g [KeyDown key1; KeyDown key2; Tick newFood]) = score g).
Proof.
  assert (forall key d, direction_eqb (turn key d) (opposite d) = false) as Hone
    by (intros [] []; reflexivity).
  split; [exact Hone|].
  intros g key1 key2 newFood front neck body Hrun Hs Hneck Hturn.
  cbn [foldl].
  set (g1 := step g (KeyDown key1)). set (g2 := step g1 (KeyDown key2)).
  assert (direction g2 = opposite (direction g)) as Hd2 by exact Hturn.
  assert (snake g2 = snake g) as Hs2 by reflexivity.
  assert (rendered_snake g2 = snake g) as Hr2.
  { subst g2. cbn [step]. unfold render at 1. cbn [rendered_snake].
    change (direction g1) with (turn key1 (direction g)).
    change (direction (handleKeyPress key2 g1)) with (turn key2 (turn key1 (direction g))).
    now rewrite Hturn, Hone. }
  assert (gameOver g2 || status_eqb (status g2) Poller.ready || negb (isPlaying g2) = false)
    as Hrun2 by exact (running_true g Hrun).
  cbn [step]. unfold moveSnake. rewrite Hrun2, Hs2, Hs, Hd2, Hneck, Hr2, Hs.
  rewrite checkCollision_hit by (now left).
  now repeat split.
Qed.

(** X13. The game can end on a move that breaks no rule. In a state of
    the game where the cell ahead is in the grid and free of the snake,
    but was held by a later segment of the snake when [moveSnake] was
    created, the tick ends the game and does not move the snake, although
    the move would have left the snake in the grid and without
    overlap. *)
Theorem game_ends_on_a_free_cell :
  forall (events : list Event) (newFood front : Position) (body : list Position),
    running (run events) = true ->
    snake (run events) = front :: body ->
    in_grid (advance (direction (run events)) front) = true ->
    In (advance (direction (run events)) front) (drop 1 (rendered_snake (run events))) ->
    ~ In (advance (direction (run events)) front) (snake (run events)) ->
    gameOver (step (run events) (Tick newFood)) = true /\
    snake (step (run events) (Tick newFood)) = snake (run events) /\
    List.NoDup (advance (direction (run events)) front :: removelast (snake (run events))) /\
    forallb in_grid (advance (direction (run events)) front :: removelast (snake (run events)))
      = true.
Proof.
  intros events newFood front body Hrun Hs Hgrid Hseen Hfree.
  split; [|split; [|split]].
  - cbn [step]. unfold moveSnake.
    rewrite (running_true _ Hrun), Hs, (checkCollision_hit _ _ Hseen). reflexivity.
  - cbn [step]. unfold moveSnake.
    rewrite (running_true _ Hrun), Hs, (checkCollision_hit _ _ Hseen).
    reflexivity.
  - constructor.
    + intros Hin%In_removelast. contradiction.
    + apply NoDup_removelast, run_sound.
  - cbn [forallb]. rewrite Hgrid. apply forallb_removelast, run_in_grid.
Qed.

(** X14. While the game is over, or the model is ready, or the game has
    not been started, ticks and key presses change neither the snake nor
    the score nor the food: only [startGame], or a new status, sets the
    game going. *)
Theorem stopped_game_stays_still :
  forall (g : Game) (events : list Event),
    running g = false ->
    forallb (fun e => negb (is_StartGame e) && negb (is_StatusProp e)) events = true ->
    snake (foldl step g events) = snake g /\
    score (foldl step g events) = score g /\
    food (foldl step g events) = food g /\
    gameOver (foldl step g events) = gameOver g /\
    running (foldl step g events) = false.
Proof.
  intros g events. revert g.
  induction events as [|e events IH]; intros g Hrun Hevents; [now repeat split|].
  cbn [forallb] in Hevents. apply andb_prop in Hevents as [He Hevents].
  cbn [foldl].
  assert (snake (step g e) = snake g /\ score (step g e) = score g /\
          food (step g e) = food g /\ gameOver (step g e) = gameOver g /\
          running (step g e) = false) as (H1 & H2 & H3 & H4 & H5).
  { destruct e as [newFood | key | newFood | s]; try discriminate.
    - cbn [step]. unfold moveSnake. rewrite (running_false _ Hrun), render_same.
      now repeat split.
    - now repeat split. }
  destruct (IH (step g e) H5 Hevents) as (I1 & I2 & I3 & I4 & I5).
  repeat split; congruence.
Qed.

End SnakeProperties.

(** ** The score and the calls of the updater *)

Section SnakeCalls.
Import Snake.

Lemma moveSnake_called_once newFood g :
  moveSnake_called 0 newFood g = moveSnake newFood g.
Proof. unfold moveSnake_called, moveSnake. now rewrite Nat.add_0_r. Qed.

Lemma step_called_once g e : step_called g (0%nat, e) = step g e.
Proof.
  destruct e; try reflexivity.
  unfold step_called. cbn [fst snd step]. now rewrite moveSnake_called_once.
Qed.

Lemma foldl_step_called_once events : forall g,
  foldl step_called g (map (pair 0%nat) events) = foldl step g events.
Proof.
  induction events as [|e events IH]; intros g; [reflexivity|].
  cbn [map foldl]. now rewrite step_called_once.
Qed.

Lemma run_called_snoc events e :
  run_called (events ++ [e]) = step_called (run_called events) e.
Proof. unfold run_called. now rewrite foldl_app. Qed.

(** The cases of a tick. *)
Ltac called_cases g front body Hrun Hs Hc Hf :=
  unfold step_called; cbn [fst snd]; unfold moveSnake_called;
  destruct (gameOver g || status_eqb (status g) Poller.ready || negb (isPlaying g))
    eqn:Hrun;
    [ | destruct (snake g) as [|front body] eqn:Hs;
        [ | destruct (checkCollision (rendered_snake g) (advance (direction g) front)) eqn:Hc;
            [ | destruct ((x (advance (direction g) front) =? x (food g))%Z
                          && (y (advance (direction g) front) =? y (food g))%Z) eqn:Hf ] ] ].

(** The calls of the updater do not show on the board. *)
Lemma step_called_board g g' e :
  same_board g g' -> same_board (step_called g e) (step g' (snd e)).
Proof.
  destruct g, g'. unfold same_board. cbn.
  intros (-> & -> & -> & -> & -> & -> & ->).
  destruct e as [extra [newFood | key | newFood | s]];
    unfold step_called; cbn [fst snd step]; [|now repeat split..].
  unfold moveSnake_called, moveSnake. cbn.
  repeat match goal with
         | |- context [if ?c then _ else _] => destruct c
         | |- context [match ?l with [] => _ | _ :: _ => _ end] => destruct l
         end; cbn; now repeat split.
Qed.

(** With the same number of calls at every tick, the score is that
    number of times the segments gained. *)
Lemma step_called_score extra g e :
  (score g + 3 * (1 + extra) = (1 + extra) * length (snake g))%nat ->
  (score (step_called g (extra, e)) + 3 * (1 + extra)
   = (1 + extra) * length (snake (step_called g (extra, e))))%nat.
Proof.
  intros Hg. destruct e as [newFood | key | newFood | s].
  - called_cases g front body Hrun Hs Hc Hf; cbn [render score snake];
      rewrite ?Hs; rewrite ?Hs in Hg; try exact Hg.
    + cbn [length] in *. nia.
    + now rewrite length_removelast_cons.
  - exact Hg.
  - cbn. lia.
  - exact Hg.
Qed.

(** Whatever the calls, the score is at least the segments gained. *)
Lemma step_called_length g e :
  (length (snake g) <= 3 + score g)%nat ->
  (length (snake (step_called g e)) <= 3 + score (step_called g e))%nat.
Proof.
  intros Hg. destruct e as [extra [newFood | key | newFood | s]].
  - called_cases g front body Hrun Hs Hc Hf; cbn [render score snake];
      rewrite ?Hs; rewrite ?Hs in Hg; try exact Hg.
    + cbn [length] in *. lia.
    + now rewrite length_removelast_cons.
  - exact Hg.
  - cbn. lia.
  - exact Hg.
Qed.

(** X9. The score counts the calls of the updater of [setSnake], not the
    food eaten: [setScore] is called inside that updater, which React
    calls once in a production build and again under StrictMode in a
    development build. When React makes [extra] calls beyond the first at
    every tick, the score is [1 + extra] times the number of segments
    that the snake has gained since [startGame]: with no further call the
    snake has three segments more than the score, and with one further
    call a snake of four segments shows the score 2. Whatever the calls,
    the score is never less than the segments gained, and the board (the
    snake, the food, the direction, the flags) is the one of the game in
    which every updater is called once. *)
Theorem score_counts_updater_calls :
  (forall (extra : nat) (events : list Event),
     (score (run_called (map (pair extra) events)) + 3 * (1 + extra)
      = (1 + extra) * length (snake (run_called (map (pair extra) events))))%nat) /\
  (forall (events : list Event),
     run_called (map (pair 0%nat) events) = run events /\
     length (snake (run_called (map (pair 0%nat) events)))
       = (3 + score (run_called (map (pair 0%nat) events)))%nat) /\
  (forall (events : list (nat * Event)),
     (length (snake (run_called events)) <= 3 + score (run_called events))%nat /\
     same_board (run_called events) (run (map snd events))) /\
  (length (snake (run_called [(1%nat, StartGame (cell 11 10)); (1%nat, Tick (cell 0 0))]))
     = 4%nat /\
   score (run_called [(1%nat, StartGame (cell 11 10)); (1%nat, Tick (cell 0 0))]) = 2%nat).
Proof.
  assert (forall (extra : nat) (events : list Event),
     (score (run_called (map (pair extra) events)) + 3 * (1 + extra)
      = (1 + extra) * length (snake (run_called (map (pair extra) events))))%nat) as Hscore.
  { intros extra events. induction events as [|e events IH] using rev_ind; [cbn; lia|].
    rewrite map_app. cbn [map]. rewrite run_called_snoc. now apply step_called_score. }
  split; [exact Hscore|]. split; [|split; [|now split]].
  - intros events. split; [apply foldl_step_called_once|].
    specialize (Hscore 0%nat events). lia.
  - intros events. induction events as [|e events [IHl IHb]] using rev_ind.
    + split; [cbn; lia | now repeat split].
    + rewrite map_app. cbn [map]. rewrite run_called_snoc, run_snoc.
      split; [now apply step_called_length | now apply step_called_board].
Qed.

End SnakeCalls.

(** ** More properties of the poller *)

Section PollerProperties.
Import Poller.
Context `{NumberOps}.

Local Open Scope Z_scope.

Lemma step_left_loading p e :
  left_loading (modelStatus p) = true -> left_loading (modelStatus (step p e)) = true.
Proof.
  intros Hp. destruct e as [now | id now | response now |]; cbn [step].
  - now rewrite checkModelStatus_sends.
  - destruct (timers p !! id) as [due|]; [|exact Hp].
    destruct (due <=? now); [|exact Hp]. now rewrite checkModelStatus_sends.
  - destruct (in_flight p) as [|n]; [exact Hp|].
    assert (forall q, modelStatus (schedule_retry now q) = modelStatus q) as Hsched.
    { intros q. unfold schedule_retry, set_retry. cbn [modelStatus].
      apply clear_pending_fields. }
    unfold checkModelStatus_settle, on_failure.
    destruct response as [|[|] [data|]]; rewrite ?Hsched; try reflexivity.
    destruct (get_property data (lit "status")) as [status|];
      [|now rewrite Hsched].
    destruct (property_truthy status).
    + now rewrite (proj1 (clear_pending_fields _)).
    + now rewrite Hsched.
  - now rewrite (proj1 (clear_pending_fields _)).
Qed.

(** X6. Once the flag has left [loading] it never returns to it: no path
    of the poller sets [loading], so after a failure the flag shows
    [error] until an answer says ready, also while answers say that the
    model is still loading. *)
Theorem status_never_returns_to_loading :
  forall (p : Poller) (events : list Event),
    left_loading (modelStatus p) = true ->
    left_loading (modelStatus (foldl step p events)) = true.
Proof.
  intros p events. revert p.
  induction events as [|e events IH]; intros p Hp; [exact Hp|].
  cbn [foldl]. now apply IH, step_left_loading.
Qed.

(** X7. The cleanup of the effect does not stop a check that is under
    way. In any state that the component reaches with a request in
    flight, if the cleanup runs and the request is then answered with
    anything but ready, a timer is set and pending, and when it fires a
    new request is sent. *)
Theorem cleanup_does_not_stop_polling :
  forall (events : list Event) (response : StatusResponse) (now : Z),
    in_flight (run events) <> 0%nat ->
    asks_again response = true ->
    timers (step (step (run events) Cleanup) (Answered response now))
      = {[ next_timer (run events) := now + 60000 ]} /\
    (forall later, now + 60000 <= later ->
       requests (step (step (step (run events) Cleanup) (Answered response now))
                      (TimerFires (next_timer (run events)) later))
       = requests (run events) ++ [later]).
Proof.
  intros events response now Hflight Hagain.
  pose proof (clear_pending_tracked _ (run_tracked events)) as Htracked.
  destruct (clear_pending_fields (run events)) as (Hm & Hn & Hi & Hr).
  cbn [step]. rewrite Hi. destruct (in_flight (run events)) as [|n]; [done|].
  set (p := {| modelStatus := modelStatus (clear_pending (run events));
               lastCheckTime := lastCheckTime (clear_pending (run events));
               checkTimeoutRef := checkTimeoutRef (clear_pending (run events));
               timers := timers (clear_pending (run events));
               next_timer := next_timer (clear_pending (run events));
               in_flight := n; requests := requests (clear_pending (run events)) |}).
  assert (timers_tracked p) as Hp by exact Htracked.
  assert (exists s, checkModelStatus_settle response now p
                    = schedule_retry now (setModelStatus s p)) as [s ->].
  { unfold checkModelStatus_settle, on_failure. unfold asks_again in Hagain.
    destruct response as [|[|] [data|]]; try (now exists error).
    destruct (get_property data (lit "status")) as [status|]; [|now exists error].
    destruct (property_truthy status); [discriminate|].
    exists (modelStatus p). now destruct p. }
  assert (timers_tracked (setModelStatus s p)) as Hps by exact Hp.
  destruct (schedule_retry_timers now _ Hps) as (Ht & _ & _ & Hreq).
  cbn [next_timer setModelStatus p] in Ht. rewrite Hn in Ht.
  split; [exact Ht|].
  intros later Hlater. rewrite Ht, lookup_singleton_eq. unfold RETRY_DELAY.
  destruct (Z.leb_spec (now + 60000) later); [|lia].
  rewrite checkModelStatus_sends. cbn [requests]. rewrite Hreq.
  cbn [requests setModelStatus p]. now rewrite Hr.
Qed.

Lemma quiet_step p e :
  timers p = ∅ -> in_flight p = 0%nat -> is_EffectRuns e = false -> step p e = p.
Proof.
  intros Ht Hi He. destruct e as [now | id now | response now |]; cbn [step].
  - discriminate.
  - now rewrite Ht, lookup_empty.
  - now rewrite Hi.
  - unfold clear_pending. destruct (checkTimeoutRef p) as [id|] eqn:Href; [|reflexivity].
    rewrite Ht, delete_empty, <- Href, <- Ht. now destruct p.
Qed.

(** X8. Polling ends when the model is ready. In any state that the
    component reaches with one request in flight, once that request is
    answered with ready, no timer is pending and no request is in flight:
    nothing that can still happen (a timer, an answer, the cleanup)
    changes the state, so that no further request is sent unless the
    effect runs again. *)
Theorem polling_stops_when_ready :
  forall (events more : list Event) (data : json) (status : property) (now : Z),
    in_flight (run events) = 1%nat ->
    get_property data (lit "status") = Some status ->
    property_truthy status = true ->
    forallb (fun e => negb (is_EffectRuns e)) more = true ->
    foldl step (step (run events) (Answered (Responded true (Some data)) now)) more
      = step (run events) (Answered (Responded true (Some data)) now) /\
    modelStatus (step (run events) (Answered (Responded true (Some data)) now)) = ready /\
    requests (step (run events) (Answered (Responded true (Some data)) now))
      = requests (run events).
Proof.
  intros events more data status now Hflight Hstatus Htruthy Hmore.
  set (p := step (run events) (Answered (Responded true (Some data)) now)).
  assert (timers p = ∅ /\ in_flight p = 0%nat /\ modelStatus p = ready /\
          requests p = requests (run events)) as (Ht & Hi & Hm & Hr).
  { subst p. cbn [step]. rewrite Hflight.
    unfold checkModelStatus_settle. rewrite Hstatus, Htruthy.
    split; [apply clear_pending_timers; exact (run_tracked events)|].
    destruct (clear_pending_fields
                (setModelStatus ready
                   {| modelStatus := modelStatus (run events);
                      lastCheckTime := lastCheckTime (run events);
                      checkTimeoutRef := checkTimeoutRef (run events);
                      timers := timers (run events);
                      next_timer := next_timer (run events);
                      in_flight := 0; requests := requests (run events) |}))
      as (Hm & _ & Hi & Hr).
    now rewrite Hm, Hi, Hr. }
  split; [|now split].
  clear -Ht Hi Hmore. induction more as [|e more IH]; [reflexivity|].
  cbn [forallb] in Hmore. apply andb_prop in Hmore as [He Hmore].
  cbn [foldl]. rewrite quiet_step; auto. now destruct (is_EffectRuns e).
Qed.

End PollerProperties.

(** ** Chunks cut between characters *)

Section Characters.
Import Chat ChatMore.

Lemma utf8_run_idle st bs :
  bytes_needed st = 0 -> utf8_run st bs = utf8_run utf8_init bs.
Proof. intros Hst. destruct bs as [|b bs]; cbn [utf8_run]; now rewrite Hst. Qed.

(** After bytes that end between two characters the decoder starts
    afresh. *)
Lemma utf8_run_app a : forall st b,
  bytes_needed (utf8_state_after st a) = 0 ->
  utf8_run st (a ++ b) = utf8_run st a ++ utf8_run utf8_init b.
Proof.
  induction a as [|c a IH]; intros st b Hend.
  - cbn in Hend. cbn [app utf8_run]. rewrite Hend. now apply utf8_run_idle.
  - cbn [app utf8_run utf8_state_after] in *.
    destruct (utf8_lead c) as [out st'] eqn:Elead. cbn [snd] in Hend.
    destruct (bytes_needed st =? 0).
    { rewrite (IH st' b Hend). now rewrite app_assoc. }
    destruct ((c <? lower_boundary st) || (upper_boundary st <? c)).
    { rewrite (IH st' b Hend). cbn [app]. now rewrite app_assoc. }
    destruct (bytes_seen st + 1 =? bytes_needed st).
    + now rewrite (IH utf8_init b Hend).
    + now rewrite (IH _ b Hend).
Qed.

Lemma strip_BOM_app cps cps' :
  strip_BOM cps' = cps' -> strip_BOM (cps ++ cps') = strip_BOM cps ++ cps'.
Proof.
  intros Hs. destruct cps as [|c cps]; [exact Hs|].
  cbn [app strip_BOM]. now destruct (c =? BOM).
Qed.

Lemma strip_BOM_none value :
  starts_with_BOM value = false ->
  strip_BOM (utf8_run utf8_init (map Byte.to_N value))
  = utf8_run utf8_init (map Byte.to_N value).
Proof.
  unfold starts_with_BOM, strip_BOM.
  destruct (utf8_run utf8_init (map Byte.to_N value)) as [|c cps]; [reflexivity|].
  now intros ->.
Qed.

Lemma cut_between_characters_cons value next rest :
  cut_between_characters (value :: next :: rest) = true ->
  bytes_needed (utf8_state_after utf8_init (map Byte.to_N value)) = 0 /\
  forallb (fun v => negb (starts_with_BOM v)) (next :: rest) = true /\
  cut_between_characters (next :: rest) = true.
Proof.
  cbn [cut_between_characters]. intros [[Hend Hbom]%andb_prop Hcut]%andb_prop.
  unfold ends_at_character in Hend. apply N.eqb_eq in Hend. auto.
Qed.

Lemma utf8_run_concat_no_BOM chunks :
  forallb (fun v => negb (starts_with_BOM v)) chunks = true ->
  cut_between_characters chunks = true ->
  strip_BOM (utf8_run utf8_init (map Byte.to_N (concat chunks)))
  = utf8_run utf8_init (map Byte.to_N (concat chunks)).
Proof.
  induction chunks as [|value rest IH]; [reflexivity|].
  cbn [forallb]. intros [Hvalue Hrest]%andb_prop Hcut.
  apply negb_true_iff in Hvalue.
  destruct rest as [|next rest].
  - cbn [concat]. rewrite app_nil_r. now apply strip_BOM_none.
  - apply cut_between_characters_cons in Hcut as (Hend & _ & Hcut).
    change (concat (value :: next :: rest)) with (value ++ concat (next :: rest)).
    rewrite map_app, (utf8_run_app _ _ _ Hend).
    rewrite strip_BOM_app by (now apply IH).
    now rewrite strip_BOM_none.
Qed.

(** Cut between characters, a stream decodes chunk by chunk to what it
    decodes to as a whole. *)
Lemma decoded_text_cut chunks :
  cut_between_characters chunks = true ->
  decoded_text chunks = TextDecoder_decode (concat chunks).
Proof.
  induction chunks as [|value rest IH]; [reflexivity|].
  intros Hcut. destruct rest as [|next rest].
  - unfold decoded_text. cbn [map concat]. now rewrite !app_nil_r.
  - pose proof Hcut as (Hend & Hbom & Hrest)%cut_between_characters_cons.
    change (decoded_text (value :: next :: rest))
      with (TextDecoder_decode value ++ decoded_text (next :: rest)).
    rewrite (IH Hrest).
    change (concat (value :: next :: rest)) with (value ++ concat (next :: rest)).
    unfold TextDecoder_decode at 3. rewrite map_app, (utf8_run_app _ _ _ Hend).
    pose proof (utf8_run_concat_no_BOM _ Hbom Hrest) as Hstrip.
    rewrite strip_BOM_app by exact Hstrip.
    rewrite utf16_encode_app. unfold TextDecoder_decode. now rewrite Hstrip.
Qed.

End Characters.

(** ** A blank line cut between two chunks *)

Section SeparatorCut.
Import Chat ChatMore.
Context `{NumberOps}.

(** The tail kept as the buffer is the end of the text. *)
Lemma pending_tail_suffix s : exists front, s = front ++ pending_tail s.
Proof.
  induction s as [| c | c d s IHs IHds] using js_string_ind2.
  - now exists [].
  - now exists [].
  - rewrite pending_tail_eq, split_blank_line_cons.
    destruct ((c =? LF) && (d =? LF)).
    + destruct IHs as [front Hfront]. exists (c :: d :: front).
      pose proof (split_blank_line_nonempty s) as Hne.
      rewrite pending_tail_eq in Hfront.
      destruct (split_blank_line s) as [|piece pieces]; [done|].
      cbn [app]. now rewrite Hfront at 1.
    + destruct IHds as [front Hfront]. rewrite pending_tail_eq in Hfront.
      destruct (split_blank_line (d :: s)) as [|piece [|piece' pieces]] eqn:E.
      * exfalso. exact (split_blank_line_nonempty _ E).
      * apply split_blank_line_single in E. subst piece. now exists [].
      * exists (c :: front). cbn [app]. now rewrite Hfront at 1.
Qed.

(** After a text that ends with a line feed the tail is empty, when the
    line feed closes a blank line, or ends with that line feed. *)
Lemma pending_tail_after_LF s :
  pending_tail (s ++ [LF]) = [] \/ exists q, pending_tail (s ++ [LF]) = q ++ [LF].
Proof.
  destruct (pending_tail_suffix (s ++ [LF])) as [front Hfront].
  destruct (pending_tail (s ++ [LF])) as [|c tail _] using rev_ind; [now left|].
  right. exists tail. rewrite app_assoc in Hfront.
  apply app_inj_tail in Hfront as [_ <-]. reflexivity.
Qed.

(** The record that a cut blank line ends: the tail kept after the first
    line feed, without it, is the first record of the next turn. *)
Lemma split_blank_line_cut s q t :
  pending_tail s = q ++ [LF] ->
  complete_records (s ++ LF :: t) = complete_records s ++ q :: complete_records t /\
  pending_tail (s ++ LF :: t) = pending_tail t /\
  complete_records ((q ++ [LF]) ++ LF :: t) = q :: complete_records t /\
  pending_tail ((q ++ [LF]) ++ LF :: t) = pending_tail t.
Proof.
  intros Hq.
  assert (split_blank_line ((q ++ [LF]) ++ LF :: t) = q :: split_blank_line t) as Hsplit.
  { rewrite <- app_assoc. cbn [app]. apply split_blank_line_record.
    rewrite <- Hq. apply split_pending_tail. }
  pose proof (split_blank_line_nonempty t) as Hne.
  assert (complete_records ((q ++ [LF]) ++ LF :: t) = q :: complete_records t) as Hrec.
  { rewrite !complete_records_eq, Hsplit.
    destruct (split_blank_line t); [done | reflexivity]. }
  assert (pending_tail ((q ++ [LF]) ++ LF :: t) = pending_tail t) as Htail.
  { rewrite !pending_tail_eq, Hsplit.
    destruct (split_blank_line t); [done | reflexivity]. }
  rewrite complete_records_app, pending_tail_app, Hq, Hrec, Htail. auto.
Qed.

(** A line feed leaves the decoder between two characters. *)
Lemma utf8_state_after_snoc_LF bs : forall st,
  0x80 <= lower_boundary st ->
  bytes_needed (utf8_state_after st (bs ++ [LF])) = 0.
Proof.
  induction bs as [|b bs IH]; intros st Hst.
  - cbn [app utf8_state_after].
    destruct (bytes_needed st =? 0); [reflexivity|].
    destruct (N.ltb_spec LF (lower_boundary st)); [reflexivity | unfold LF in *; lia].
  - cbn [app utf8_state_after].
    pose proof (utf8_lead_lower b) as Hlead.
    destruct (bytes_needed st =? 0); [now apply IH|].
    destruct ((b <? lower_boundary st) || (upper_boundary st <? b)); [now apply IH|].
    destruct (bytes_seen st + 1 =? bytes_needed st); apply IH; cbn; lia.
Qed.

Lemma decoded_text_app chunks chunks' :
  decoded_text (chunks ++ chunks') = decoded_text chunks ++ decoded_text chunks'.
Proof. unfold decoded_text. now rewrite map_app, concat_app. Qed.

(** Two chunks cut between the line feeds of a blank line decode to the
    text of the two as one chunk. *)
Lemma decoded_text_blank_line_cut b1 b2 :
  decoded_text [b1 ++ [x0a]; x0a :: b2] = decoded_text [b1 ++ x0a :: x0a :: b2].
Proof.
  rewrite (decoded_text_cut [b1 ++ [x0a]; x0a :: b2]).
  - unfold decoded_text. cbn [concat map]. rewrite !app_nil_r, <- app_assoc. reflexivity.
  - assert (ends_at_character (b1 ++ [x0a]) = true) as Hend.
    { unfold ends_at_character. rewrite map_app.
      change (map Byte.to_N [x0a]) with [LF].
      now rewrite utf8_state_after_snoc_LF by (cbn; lia). }
    cbn [cut_between_characters]. rewrite Hend. reflexivity.
Qed.

(** C2. A blank line cut between two chunks, its first line feed the
    last byte of one chunk and its second the first byte of the next,
    wherever in the stream: the page after the submission is the one that
    the same stream gives with the two chunks delivered as one, the echo
    of the text received apart, so that the record which the blank line
    ends is neither lost nor handled twice. On the text of the chunks:
    when the tail kept after the first chunk is a record [q] followed by
    the line feed, whatever records that chunk has completed before, the
    loop handles those records at the first chunk and keeps [q] and the
    line feed as its buffer; at the second chunk it handles [q] once,
    then the records of the rest of that chunk; and these are the records
    of the whole text, in their order. The only other case is that the
    line feed at the end of the first chunk closes a blank line within
    that chunk, leaving an empty tail. The two chunks of the example give
    the content [Hello]. *)
Theorem separator_cut_between_chunks :
  (forall (before after : list (list byte)) (b1 b2 : list byte) (e : StreamEnd) (p : Page),
     hush <$> handleSubmit (Stream (before ++ [b1 ++ [x0a]; x0a :: b2] ++ after) e) p =
     hush <$> handleSubmit (Stream (before ++ [b1 ++ x0a :: x0a :: b2] ++ after) e) p) /\
  (forall (c1 c2 : list byte) (r t buffer q : js_string) (p : Page),
     TextDecoder_decode c1 = r ++ [LF] ->
     TextDecoder_decode c2 = LF :: t ->
     pending_tail (buffer ++ r ++ [LF]) = q ++ [LF] ->
     complete_records ((buffer ++ r ++ [LF]) ++ LF :: t)
       = complete_records (buffer ++ r ++ [LF]) ++ q :: complete_records t /\
     read_chunk c1 buffer p =
       (p0 ← process_messages (complete_records (buffer ++ r ++ [LF]))
               (emit (Log_received (r ++ [LF])) p);
        Some (q ++ [LF], p0)) /\
     read_loop [c1; c2] buffer p =
       (p0 ← process_messages (complete_records (buffer ++ r ++ [LF]))
               (emit (Log_received (r ++ [LF])) p);
        p1 ← process_message q (emit (Log_received (LF :: t)) p0);
        p2 ← process_messages (complete_records t) p1;
        Some (pending_tail t, p2))) /\
  (forall (r buffer : js_string),
     pending_tail (buffer ++ r ++ [LF]) = [] \/
     exists q, pending_tail (buffer ++ r ++ [LF]) = q ++ [LF]) /\
  (forall (shown : list Message) (text : js_string),
     string_truthy (trim text) = true ->
     messages <$> handleSubmit (Stream [hello_first; hello_second] Done)
                    (asking shown text) =
     Some (shown ++ [ {| role := user; content := text |};
                      {| role := assistant; content := lit "Hello" |} ])).
Proof.
  split; [|split; [|split]].
  - intros before after b1 b2 e p. apply handleSubmit_same_text.
    rewrite !decoded_text_app. f_equal. f_equal. apply decoded_text_blank_line_cut.
  - intros c1 c2 r t buffer q p Hc1 Hc2 Hq.
    destruct (split_blank_line_cut _ _ t Hq) as (Hall & _ & Hrec & Htail).
    split; [exact Hall|].
    assert (read_chunk c1 buffer p =
            (p0 ← process_messages (complete_records (buffer ++ r ++ [LF]))
                    (emit (Log_received (r ++ [LF])) p);
             Some (q ++ [LF], p0))) as Hfirst
      by (now rewrite read_chunk_records, Hc1, Hq).
    split; [exact Hfirst|].
    cbn [read_loop]. rewrite Hfirst.
    destruct (process_messages (complete_records (buffer ++ r ++ [LF])) _) as [p0|];
      [|reflexivity].
    cbn [mbind option_bind].
    rewrite read_chunk_records, Hc2, Hrec, Htail. cbn [process_messages].
    destruct (process_message q _) as [p1|]; cbn [mbind option_bind]; [|reflexivity].
    destruct (process_messages (complete_records t) p1); reflexivity.
  - intros r buffer. rewrite app_assoc. apply pending_tail_after_LF.
  - intros shown text Htyped.
    destruct (handleSubmit_deltas [hello_first; hello_second] [lit "Hello"]
                (asking shown text) Htyped eq_refl) as (p' & -> & Hm & _).
    cbn [fmap option_fmap option_map]. now rewrite Hm.
Qed.

End SeparatorCut.

(** ** More properties of the assembler *)

Section AssemblerProperties.
Import Chat ChatMore.
Context `{NumberOps}.

(** The pages of the loop, read off the records of the text. *)
Lemma read_loop_pages chunks p :
  (hush ∘ snd) <$> read_loop chunks [] p =
  process_messages (complete_records (decoded_text chunks)) (hush p).
Proof.
  pose proof (read_loop_text chunks p) as Hloop.
  destruct (read_loop chunks [] p) as [[tail p1]|],
           (process_messages (complete_records (decoded_text chunks)) (hush p)) as [q|];
    cbn in *; congruence.
Qed.

(** The result of a submission depends on the stream through the pages
    of the loop only. *)
Lemma handleSubmit_same_loop chunks chunks' e p :
  (hush ∘ snd) <$> read_loop chunks [] (submitted p) =
  (hush ∘ snd) <$> read_loop chunks' [] (submitted p) ->
  hush <$> handleSubmit (Stream chunks e) p = hush <$> handleSubmit (Stream chunks' e) p.
Proof.
  intros Hloop.
  destruct (string_truthy (trim (input p))) eqn:Htyped.
  - rewrite !handleSubmit_submitted by assumption.
    destruct (read_loop chunks [] (submitted p)) as [[b p1]|],
             (read_loop chunks' [] (submitted p)) as [[b' p1']|];
      try discriminate; [|reflexivity].
    assert (hush p1 = hush p1') as Hpages by (cbn in Hloop; congruence).
    cbn [mbind option_bind].
    destruct e.
    + change (Some (hush (setIsLoading false p1)) = Some (hush (setIsLoading false p1'))).
      now rewrite !hush_setIsLoading, Hpages.
    + pose proof (hush_on_error p1) as E1. pose proof (hush_on_error p1') as E1'.
      rewrite Hpages in E1. rewrite E1' in E1.
      destruct (on_error p1) as [q|], (on_error p1') as [q'|];
        try discriminate; [|reflexivity].
      assert (hush q' = hush q) as Hq by (cbn in E1; congruence).
      change (Some (hush (setIsLoading false q)) = Some (hush (setIsLoading false q'))).
      now rewrite !hush_setIsLoading, Hq.
  - unfold handleSubmit. cbn [input emit]. now rewrite Htyped.
Qed.

(** X1. When every chunk but the last ends between two characters and
    no chunk but the first starts with a byte order mark, the cut into
    chunks does not show: the page after the submission is the one that
    the whole stream gives as a single chunk, the echo of the text
    received apart. *)
Theorem chunks_cut_between_characters :
  forall (chunks : list (list byte)) (e : StreamEnd) (p : Page),
    cut_between_characters chunks = true ->
    hush <$> handleSubmit (Stream chunks e) p =
    hush <$> handleSubmit (Stream [concat chunks] e) p.
Proof.
  intros chunks e p Hcut. apply handleSubmit_same_loop.
  rewrite !read_loop_pages. f_equal. f_equal.
  rewrite (decoded_text_cut _ Hcut). unfold decoded_text. cbn. now rewrite app_nil_r.
Qed.

(** X2. The page after a submission depends on the stream through its
    complete records only. The text after the last blank line stays in
    the buffer and is dropped when the stream ends, so a last record
    that no blank line follows is lost. *)
Theorem unterminated_record_is_dropped :
  forall (chunks chunks' : list (list byte)) (e : StreamEnd) (p : Page),
    complete_records (decoded_text chunks) = complete_records (decoded_text chunks') ->
    hush <$> handleSubmit (Stream chunks e) p =
    hush <$> handleSubmit (Stream chunks' e) p.
Proof.
  intros chunks chunks' e p Hrecords. apply handleSubmit_same_loop.
  now rewrite !read_loop_pages, Hrecords.
Qed.





Lemma append_content_empty delta :
  append_content (JString delta) [] = Some [ {| role := assistant; content := delta |} ].
Proof. reflexivity. Qed.

(** X5. The restart button works while an answer is streaming, and the
    stream goes on into the cleared list. The first delta that arrives
    after the restart finds no message and makes an assistant message of
    its own, to which the later deltas are appended: the cleared chat
    shows the rest of the answer to a question that is gone. If instead
    the stream fails before any delta arrives, the updater of the
    [catch] block reads the role of a message that does not exist, and
    throws. *)
Theorem restart_while_streaming :
  (forall (rest : list (list byte)) (buffer : js_string) (deltas : list js_string) (p : Page),
     split_blank_line buffer = [buffer] ->
     mapM record_delta (complete_records (buffer ++ decoded_text rest)) = Some deltas ->
     deltas <> [] ->
     exists p', read_loop rest buffer (handleRestart p)
                  = Some (pending_tail (buffer ++ decoded_text rest), p') /\
                messages p' = [ {| role := assistant; content := concat deltas |} ]) /\
  (forall (p : Page), on_error (handleRestart p) = None) /\
  (forall (p : Page), messages (handleRestart p) = [] /\ input (handleRestart p) = []
                      /\ isLoading (handleRestart p) = isLoading p).
Proof.
  split; [|split; [reflexivity | now repeat split]].
  intros rest buffer deltas p Hbuf Hd Hne.
  set (records := complete_records (buffer ++ decoded_text rest)) in *.
  assert (exists q, process_messages records (hush (handleRestart p)) = Some q /\
                    messages q = [ {| role := assistant; content := concat deltas |} ])
    as (q & Hq & Hmq).
  { destruct records as [|m records]; [now injection Hd as <-|].
    apply mapM_Some in Hd. inversion Hd as [|? d ? ds Hm Hrest]; subst.
    apply mapM_Some in Hrest.
    assert (exists q1, process_message m (hush (handleRestart p)) = Some q1 /\
                       messages q1 = [] ++ [ {| role := assistant; content := d |} ])
      as (q1 & Hq1 & Hm1).
    { unfold record_delta in Hm. unfold process_message.
      destruct (startsWith m DATA_PREFIX); [|discriminate].
      destruct (JSON_parse (slice_from 6 m)) as [data|]; [|discriminate].
      cbn [mbind option_bind] in Hm.
      destruct (get_property data (lit "content")) as [[|[]]|]; try discriminate.
      injection Hm as ->. unfold setMessages. cbn [messages emit hush handleRestart].
      rewrite append_content_empty. cbn. eauto. }
    destruct (process_messages_deltas records ds q1 [] _ Hrest Hm1) as (q & Hq & Hmq).
    exists q. cbn [process_messages]. rewrite Hq1. cbn [mbind option_bind].
    split; [exact Hq|]. rewrite Hmq. reflexivity. }
  pose proof (read_loop_records rest buffer (handleRestart p) Hbuf) as Hloop.
  fold records in Hloop. rewrite Hq in Hloop. cbn [mbind option_bind] in Hloop.
  destruct (read_loop rest buffer (handleRestart p)) as [[tail p1]|]; [|discriminate].
  change (Some (tail, hush p1) = Some (pending_tail (buffer ++ decoded_text rest), q))
    in Hloop.
  injection Hloop as -> Hp1.
  exists p1. split; [reflexivity|].
  now rewrite <- (hush_submitted_messages p1), Hp1.
Qed.

(** C8 (a defect of the code). The claim asks that every error thrown
    during the request or the reading of the stream puts the apology in
    the open assistant message and leaves a session that accepts a new
    submission. The restart button is enabled while a request is pending.
    The question [hi] is submitted, the button is pressed before the
    request is answered, and the request is rejected: the updater of the
    [catch] block finds the list empty, reads the role of a message that
    does not exist, and throws, so that the render fails and the page is
    gone; the same happens when the response is not 2xx, has no body, or
    a read rejects before a delta has arrived. Without the restart the
    rejected request shows the apology, and the updater of a delta, some
    lines above, does provide for the empty list. *)
Theorem chat_failure_after_restart :
  messages <$> handleSubmit FetchRejected (asking [] (lit "hi")) =
    Some [ {| role := user; content := lit "hi" |};
           {| role := assistant; content := APOLOGY |} ] /\
  messages (submitted (asking [] (lit "hi"))) =
    [ {| role := user; content := lit "hi" |}; {| role := assistant; content := [] |} ] /\
  isLoading (submitted (asking [] (lit "hi"))) = true /\
  messages (handleRestart (submitted (asking [] (lit "hi")))) = [] /\
  on_error (handleRestart (submitted (asking [] (lit "hi")))) = None /\
  (read_loop [] [] (handleRestart (submitted (asking [] (lit "hi")))) ≫= on_error ∘ snd)
    = None /\
  show_apology [] = None /\
  append_content (JString (lit "late")) [] =
    Some [ {| role := assistant; content := lit "late" |} ].
Proof. repeat split; reflexivity. Qed.

End AssemblerProperties.

(** ** More properties at concrete inputs *)

Section MoreInstances.
Import Chat ChatMore.

#[local] Existing Instance numerals_as_written.

Lemma separator_cut_between_chunks_witness :
  (complete_records (TextDecoder_decode letters_first) = [ascii_text "data: {'content':'A'}"] /\
   pending_tail (TextDecoder_decode letters_first)
     = ascii_text "data: {'content':'B'}" ++ [LF] /\
   (messages ∘ snd) <$> read_loop [letters_first; letters_second] []
                           (submitted (asking [] (lit "hi"))) =
     Some [ {| role := user; content := lit "hi" |};
            {| role := assistant; content := lit "ABC" |} ]) /\
  (pending_tail (TextDecoder_decode greeting_first)
     = ascii_text "data: {'content':'Hello'}" ++ [LF] /\
   (messages ∘ snd) <$> read_loop [greeting_first; greeting_second] []
                           (submitted (asking [] (lit "hi"))) =
     Some [ {| role := user; content := lit "hi" |};
            {| role := assistant; content := lit "Hello there" |} ]) /\
  messages <$> handleSubmit (Stream [hello_first; hello_second] Done) (asking [] (lit "hi")) =
    Some [ {| role := user; content := lit "hi" |};
           {| role := assistant; content := lit "Hello" |} ].
Proof.
  split; [|split].
  - split; [reflexivity|]. split; [reflexivity|].
    rewrite (proj2 (proj2 (proj1 (proj2 separator_cut_between_chunks)
                      letters_first letters_second
                      (ascii_text "data: {'content':'A'}" ++ [LF; LF]
                         ++ ascii_text "data: {'content':'B'}")
                      (ascii_text "data: {'content':'C'}" ++ [LF; LF])
                      [] (ascii_text "data: {'content':'B'}")
                      (submitted (asking [] (lit "hi")))
                      eq_refl eq_refl eq_refl))).
    reflexivity.
  - split; [reflexivity|].
    rewrite (proj2 (proj2 (proj1 (proj2 separator_cut_between_chunks)
                      greeting_first greeting_second
                      (ascii_text "data: {'content':'Hello'}")
                      (ascii_text "data: {'content':' there'}" ++ [LF; LF])
                      [] (ascii_text "data: {'content':'Hello'}")
                      (submitted (asking [] (lit "hi")))
                      eq_refl eq_refl eq_refl))).
    reflexivity.
  - exact (proj2 (proj2 (proj2 separator_cut_between_chunks)) [] (lit "hi") eq_refl).
Defined.

Lemma chunks_cut_between_characters_witness :
  cut_between_characters [accent_first; accent_second] = true /\
  hush <$> handleSubmit (Stream [accent_first; accent_second] Done) (asking [] (lit "hi")) =
  hush <$> handleSubmit (Stream [concat [accent_first; accent_second]] Done)
             (asking [] (lit "hi")) /\
  messages <$> handleSubmit (Stream [accent_first; accent_second] Done) (asking [] (lit "hi")) =
    Some [ {| role := user; content := lit "hi" |};
           {| role := assistant; content := [0xE9] |} ].
Proof.
  split; [reflexivity|]. split; [|reflexivity].
  exact (chunks_cut_between_characters [accent_first; accent_second] Done
           (asking [] (lit "hi")) eq_refl).
Defined.

Lemma unterminated_record_is_dropped_witness :
  hush <$> handleSubmit (Stream [terminated_A; unterminated_B] Done) (asking [] (lit "hi")) =
  hush <$> handleSubmit (Stream [terminated_A] Done) (asking [] (lit "hi")) /\
  messages <$> handleSubmit (Stream [terminated_A; unterminated_B] Done)
                 (asking [] (lit "hi")) =
    Some [ {| role := user; content := lit "hi" |};
           {| role := assistant; content := lit "A" |} ].
Proof.
  split; [|reflexivity].
  exact (unterminated_record_is_dropped [terminated_A; unterminated_B] [terminated_A] Done
           (asking [] (lit "hi")) eq_refl).
Defined.


Lemma restart_while_streaming_witness :
  exists p',
    read_loop [late_delta] [] (handleRestart (submitted (asking [] (lit "hi"))))
      = Some ([], p') /\
    messages p' = [ {| role := assistant; content := lit "late" |} ].
Proof.
  assert ([lit "late"] <> []) as Hne by discriminate.
  exact (proj1 restart_while_streaming [late_delta] [] [lit "late"]
           (submitted (asking [] (lit "hi"))) eq_refl eq_refl Hne).
Defined.

End MoreInstances.

Section PollerInstances.
Import Poller.

#[local] Existing Instance numerals_as_written.

Local Open Scope Z_scope.

Lemma status_never_returns_to_loading_witness :
  modelStatus (run [EffectRuns 1000; Answered FetchRejected 1500]) = error /\
  left_loading
    (modelStatus
       (foldl step (run [EffectRuns 1000; Answered FetchRejected 1500])
          [TimerFires 1 61500;
           Answered (Responded true (Some (status_payload false))) 62000])) = true.
Proof.
  split; [reflexivity|].
  exact (status_never_returns_to_loading
           (run [EffectRuns 1000; Answered FetchRejected 1500])
           [TimerFires 1 61500;
            Answered (Responded true (Some (status_payload false))) 62000] eq_refl).
Defined.

Lemma cleanup_does_not_stop_polling_witness :
  timers (step (step (run [EffectRuns 1000]) Cleanup)
            (Answered (Responded true (Some (status_payload false))) 1500))
    = {[ 1%positive := 61500 ]} /\
  requests (step (step (step (run [EffectRuns 1000]) Cleanup)
                    (Answered (Responded true (Some (status_payload false))) 1500))
              (TimerFires 1 61500)) = [1000; 61500].
Proof.
  assert (in_flight (run [EffectRuns 1000]) <> 0%nat) as Hflight by discriminate.
  destruct (cleanup_does_not_stop_polling [EffectRuns 1000]
              (Responded true (Some (status_payload false))) 1500 Hflight eq_refl)
    as (Ht & Hretry).
  split; [exact Ht|]. apply (Hretry 61500). discriminate.
Defined.

Lemma polling_stops_when_ready_witness :
  foldl step (step (run [EffectRuns 1000])
                (Answered (Responded true (Some (status_payload true))) 1500))
    [TimerFires 1 99999; Cleanup; Answered FetchRejected 100000]
  = step (run [EffectRuns 1000])
      (Answered (Responded true (Some (status_payload true))) 1500) /\
  modelStatus (step (run [EffectRuns 1000])
                 (Answered (Responded true (Some (status_payload true))) 1500)) = ready.
Proof.
  destruct (polling_stops_when_ready [EffectRuns 1000]
              [TimerFires 1 99999; Cleanup; Answered FetchRejected 100000]
              (status_payload true) (Value (JBool true)) 1500
              eq_refl eq_refl eq_refl eq_refl) as (Hquiet & Hready & _).
  split; [exact Hquiet | exact Hready].
Defined.

End PollerInstances.

Section SnakeInstances.
Import Snake.

Local Open Scope Z_scope.

Lemma snake_stays_in_grid_witness :
  in_grid (food (run towards_the_freed_cell)) = true.
Proof. exact (proj2 (snake_stays_in_grid towards_the_freed_cell) eq_refl). Defined.

Lemma quick_reversal_ends_game_witness :
  snake (run one_step_right) = [cell 11 10; cell 10 10; cell 9 10] /\
  gameOver (foldl step (run one_step_right)
              [KeyDown ArrowUp; KeyDown ArrowLeft; Tick (cell 0 0)]) = true.
Proof.
  split; [reflexivity|].
  exact (proj1 (proj2 quick_reversal_ends_game (run one_step_right) ArrowUp ArrowLeft
                  (cell 0 0) (cell 11 10) (cell 10 10) [cell 9 10]
                  eq_refl eq_refl eq_refl eq_refl)).
Defined.

Lemma game_ends_on_a_free_cell_witness :
  snake (run towards_the_freed_cell)
    = [cell 12 10; cell 11 10; cell 10 10; cell 10 11; cell 11 11; cell 12 11] /\
  gameOver (run towards_the_freed_cell) = false /\
  gameOver (step (run towards_the_freed_cell) (Tick (cell 0 0))) = true.
Proof.
  split; [reflexivity|]. split; [reflexivity|].
  assert (In (advance (direction (run towards_the_freed_cell)) (cell 12 10))
            (drop 1 (rendered_snake (run towards_the_freed_cell)))) as Hseen
    by (vm_compute; repeat (first [left; reflexivity | right])).
  assert (~ In (advance (direction (run towards_the_freed_cell)) (cell 12 10))
            (snake (run towards_the_freed_cell))) as Hfree
    by (vm_compute; intuition discriminate).
  exact (proj1 (game_ends_on_a_free_cell towards_the_freed_cell (cell 0 0) (cell 12 10)
                  [cell 11 10; cell 10 10; cell 10 11; cell 11 11; cell 12 11]
                  eq_refl eq_refl eq_refl Hseen Hfree)).
Defined.

Lemma stopped_game_stays_still_witness :
  snake (foldl step initial [Tick (cell 0 0); KeyDown ArrowUp; Tick (cell 0 0)])
    = INITIAL_SNAKE.
Proof.
  exact (proj1 (stopped_game_stays_still initial
                  [Tick (cell 0 0); KeyDown ArrowUp; Tick (cell 0 0)] eq_refl eq_refl)).
Defined.

End SnakeInstances.
